(** * nodejs-skynet: chunk-aligned partitioning, skylink decoding and the
      upload paths

    A shallow embedding of [src/upload.js] and [src/defaults.js].

    JavaScript numbers that hold byte counts, part counts and indices are
    modelled as [Z] (the code only ever adds, divides with [Math.floor],
    takes remainders and compares them; the model is exact for integers
    in the range where double-precision arithmetic is).  Option values whose integrality
    is checked by the code are modelled as rationals [Q].  A thrown [Error]
    or a rejected promise is the [Err] case of [result]; the JavaScript
    code has a single [Error] class, so the constructor of [error] records
    the place that raised it.  The constructor [Unsettled] is no rejection:
    it marks a promise that is never settled, neither resolved nor
    rejected, because [cause] was raised inside a callback where nothing
    catches it.  A caller that awaits such a promise never continues and
    never receives a value, which is how [Err] propagates. *)

From Stdlib Require Import ZArith QArith Qround Ascii String.
From stdpp Require Import base tactics option list gmap strings.

Local Open Scope Z_scope.

(** ** Errors and results *)

Inductive error : Type :=
| InvalidArgument (name expected : string)
| MalformedSkylink (msg : string)
| UploadIncomplete (msg : string)
| TransportError (msg : string)
| Unsettled (cause : error).

Inductive result (A : Type) : Type :=
| Ok (a : A)
| Err (e : error).

Arguments Ok {A} a.
Arguments Err {A} e.

Definition isOk {A} (r : result A) : bool :=
  match r with Ok _ => true | Err _ => false end.

Definition isInvalidArgument {A} (r : result A) : bool :=
  match r with Err (InvalidArgument _ _) => true | _ => false end.

Global Instance result_ret : MRet result := λ A a, Ok a.

Global Instance result_bind : MBind result := λ A B k r,
  match r with
  | Ok a => k a
  | Err e => Err e
  end.

(** [throwValidationError(name, value, valueKind, expected)] of
    [utils_validation.js]: it always throws; the message is built from its
    arguments, of which the model keeps the name and the expectation. *)
Definition throwValidationError {A} (name expected : string) : result A :=
  Err (InvalidArgument name expected).

(** ** ChunkPartitioner: [splitSizeIntoChunkAlignedParts] (upload.js) *)

Record part : Type := { start : Z; end_ : Z }.

Definition part_length (p : part) : Z := end_ p - start p.

Definition sumZ (l : list Z) : Z := foldr Z.add 0 l.

(** [partSizes[i] += v].  The index is in range at both uses in the source
    (lemmas [chunk_index_in_range] and [lastIndex_in_range]); out of range
    [alter] leaves the list as it is. *)
Definition addAt (v : Z) (i : Z) (partSizes : list Z) : list Z :=
  alter (λ x, x + v) (Z.to_nat i) partSizes.

(** The body of the whole-chunk loop:
    [partSizes[i % partCount] += chunkSize]. *)
Definition assignChunk (partCount chunkSize : Z) (partSizes : list Z) (i : Z)
    : list Z :=
  addAt chunkSize (i `mod` partCount) partSizes.

(** [for (let i = 0; i < numFullChunks; i++)] over that body. *)
Definition assignChunks (partCount chunkSize numFullChunks : Z)
    (partSizes : list Z) : list Z :=
  foldl (assignChunk partCount chunkSize) partSizes (seqZ 0 numFullChunks).

(** The loop that converts sizes into parts.  [partSizes] has exactly
    [partCount] entries, so indexing it by [i < partCount] visits the list
    in order; [lastBoundary] is the loop's running variable. *)
Fixpoint sizesToParts (lastBoundary : Z) (partSizes : list Z) : list part :=
  match partSizes with
  | [] => []
  | s :: rest =>
      {| start := lastBoundary; end_ := lastBoundary + s |}
        :: sizesToParts (lastBoundary + s) rest
  end.

Definition partSizesOf (totalSize partCount chunkSize : Z) : list Z :=
  let partSizes := replicate (Z.to_nat partCount) 0 in
  let numFullChunks := totalSize `div` chunkSize in
  let partSizes := assignChunks partCount chunkSize numFullChunks partSizes in
  let leftover := totalSize `mod` chunkSize in
  if 0 <? leftover then
    let lastIndex := Z.min numFullChunks (partCount - 1) in
    addAt leftover lastIndex partSizes
  else partSizes.

Definition splitSizeIntoChunkAlignedParts (totalSize partCount chunkSize : Z)
    : result (list part) :=
  if partCount <? 1 then
    throwValidationError "partCount" "greater than or equal to 1"
  else if chunkSize <? 1 then
    throwValidationError "chunkSize" "greater than or equal to 1"
  else if totalSize <=? chunkSize then
    throwValidationError "totalSize" "greater than the size of a chunk"
  else Ok (sizesToParts 0 (partSizesOf totalSize partCount chunkSize)).

(** The algorithm in the words of the specification: every whole chunk
    [i < fullChunks] contributes [chunkSize] to part [i mod partCount], the
    leftover goes to part [min(fullChunks, partCount - 1)], and part [j]
    starts where the sizes of the parts before it end. *)
Definition spec_partSize (totalSize partCount chunkSize : Z) (j : Z) : Z :=
  let fullChunks := totalSize `div` chunkSize in
  let leftover := totalSize `mod` chunkSize in
  sumZ ((λ i, if decide (i `mod` partCount = j) then chunkSize else 0)
          <$> seqZ 0 fullChunks)
  + (if decide (0 < leftover ∧ j = Z.min fullChunks (partCount - 1))
     then leftover else 0).

Definition spec_offset (totalSize partCount chunkSize : Z) (j : Z) : Z :=
  sumZ (spec_partSize totalSize partCount chunkSize <$> seqZ 0 j).

Definition spec_parts (totalSize partCount chunkSize : Z) : list part :=
  (λ j, {| start := spec_offset totalSize partCount chunkSize j;
           end_ := spec_offset totalSize partCount chunkSize j
                   + spec_partSize totalSize partCount chunkSize j |})
    <$> seqZ 0 partCount.

(** A part is chunk-aligned when its length is an exact multiple of the
    chunk size. *)
Definition aligned (chunkSize : Z) (p : part) : Prop :=
  part_length p `mod` chunkSize = 0.

Definition unaligned (chunkSize : Z) (p : part) : Prop :=
  ¬ aligned chunkSize p.

Global Instance unaligned_dec chunkSize p : Decision (unaligned chunkSize p).
Proof. unfold unaligned, aligned. apply _. Defined.

(** ** SkylinkCodec: [decodeSkylinkBase64] (defaults.js) *)

(** JavaScript strings are modelled as [string]; [s.length] is
    [String.length s] and [s.charCodeAt(i)] is [String.get i s]. *)

Fixpoint mapChars (f : ascii → ascii) (s : string) : string :=
  match s with
  | EmptyString => EmptyString
  | String c rest => String (f c) (mapChars f rest)
  end.

(** [s.replace(/a/g, b)] for single characters [a] and [b]. *)
Definition replaceAll (a b : ascii) (s : string) : string :=
  mapChars (λ c, if Ascii.eqb c a then b else c) s.

(** [s.indexOf(c)], counted from [i]; [None] is JavaScript's [-1]. *)
Fixpoint indexOfFrom (c : ascii) (s : string) (i : Z) : option Z :=
  match s with
  | EmptyString => None
  | String d rest => if Ascii.eqb d c then Some i else indexOfFrom c rest (i + 1)
  end.

Definition indexOf (c : ascii) (s : string) : option Z := indexOfFrom c s 0.

(** The decoder the source imports: [toByteArray] of the package
    [base64-js] (its [index.js], versions 1.3 to 1.5).  It is a dependency,
    not a file of this repository; the model follows the package's code. *)
Module Base64Js.

Definition code : string :=
  "ABCDEFGHIJKLMNOPQRSTUVWXYZabcdefghijklmnopqrstuvwxyz0123456789+/".

(** [revLookup[b64.charCodeAt(i)]] as the bit operations read it: a
    character outside the table gives [undefined], which [<<], [>>] and
    [|] turn into [0]; so does [charCodeAt] past the end of the string. *)
Definition revLookup (b64 : string) (i : Z) : Z :=
  match String.get (Z.to_nat i) b64 with
  | None => 0
  | Some c =>
      match indexOf c code with
      | Some k => k
      | None =>
          if Ascii.eqb c "-" then 62
          else if Ascii.eqb c "_" then 63
          else 0
      end
  end.

(** [getLens]: [(validLen, placeHoldersLen)]. *)
Definition getLens (b64 : string) : result (Z * Z) :=
  let len := Z.of_nat (String.length b64) in
  if 0 <? len `mod` 4 then
    Err (MalformedSkylink "Invalid string. Length must be a multiple of 4")
  else
    let validLen := default len (indexOf "=" b64) in
    let placeHoldersLen :=
      if validLen =? len then 0 else 4 - validLen `mod` 4 in
    Ok (validLen, placeHoldersLen).

Definition _byteLength (validLen placeHoldersLen : Z) : Z :=
  ((validLen + placeHoldersLen) * 3) `div` 4 - placeHoldersLen.

(** One round of the main loop: three bytes from the four characters
    at [i].  [arr] is a [Uint8Array]: a write past its end is ignored,
    as [<[_:=_]>] does on lists. *)
Definition decodeQuad (b64 : string) (st : nat * list Z) (i : Z)
    : nat * list Z :=
  let '(curByte, arr) := st in
  let tmp :=
    Z.lor (Z.lor (Z.lor (Z.shiftl (revLookup b64 i) 18)
                        (Z.shiftl (revLookup b64 (i + 1)) 12))
                 (Z.shiftl (revLookup b64 (i + 2)) 6))
          (revLookup b64 (i + 3)) in
  let arr := <[curByte := Z.land (Z.shiftr tmp 16) 255]> arr in
  let arr := <[S curByte := Z.land (Z.shiftr tmp 8) 255]> arr in
  let arr := <[S (S curByte) := Z.land tmp 255]> arr in
  (S (S (S curByte)), arr).

(** [for (i = 0; i < len; i += 4)] runs for [i = 0, 4, 8, ...] below
    [len]: [numQuads len] rounds, and [i] is [4 * numQuads len] after
    it. *)
Definition numQuads (len : Z) : Z := Z.max 0 ((len + 3) `div` 4).

Definition toByteArray (b64 : string) : result (list Z) :=
  match getLens b64 with
  | Err e => Err e
  | Ok (validLen, placeHoldersLen) =>
      let n := _byteLength validLen placeHoldersLen in
      if n <? 0 then Err (MalformedSkylink "Invalid typed array length")
      else
        let arr := replicate (Z.to_nat n) 0 in
        let len := if 0 <? placeHoldersLen then validLen - 4 else validLen in
        let '(curByte, arr) :=
          foldl (decodeQuad b64) (0%nat, arr)
                ((λ k, 4 * k) <$> seqZ 0 (numQuads len)) in
        let i := 4 * numQuads len in
        let '(curByte, arr) :=
          if placeHoldersLen =? 2 then
            let tmp := Z.lor (Z.shiftl (revLookup b64 i) 2)
                             (Z.shiftr (revLookup b64 (i + 1)) 4) in
            (S curByte, <[curByte := Z.land tmp 255]> arr)
          else (curByte, arr) in
        let '(curByte, arr) :=
          if placeHoldersLen =? 1 then
            let tmp := Z.lor (Z.lor (Z.shiftl (revLookup b64 i) 10)
                                    (Z.shiftl (revLookup b64 (i + 1)) 4))
                             (Z.shiftr (revLookup b64 (i + 2)) 2) in
            let arr := <[curByte := Z.land (Z.shiftr tmp 8) 255]> arr in
            (S (S curByte), <[S curByte := Z.land tmp 255]> arr)
          else (curByte, arr) in
        Ok arr
  end.

End Base64Js.

Definition BASE64_ENCODED_SKYLINK_SIZE : nat := 46.

Definition RAW_SKYLINK_SIZE : nat := 34.

Definition decodeSkylinkBase64 (skylink : string) : result (list Z) :=
  if decide (String.length skylink ≠ BASE64_ENCODED_SKYLINK_SIZE) then
    Err (MalformedSkylink "Skylink is not 46 bytes long.")
  else
    let skylink := skylink +:+ "==" in
    let skylink := replaceAll "_" "/" (replaceAll "-" "+" skylink) in
    Base64Js.toByteArray skylink.

(** [c] occurs in [s]. *)
Fixpoint hasChar (c : ascii) (s : string) : bool :=
  match s with
  | EmptyString => false
  | String d rest => Ascii.eqb d c || hasChar c rest
  end.

Definition padded45 : string :=
  "AAAAAAAAAAAAAAAAAAAAAAAAAAAAAAAAAAAAAAAAAAAAA=".

Definition sampleSkylink : string :=
  "XABvi7JtJbQSMAcDwnUnmp2FKDPjg8_tTTFP4BwMSxVdEg".

(** Modelled from the spec: the constant [uriSkynetPrefix] of [utils.js],
    which is not among the sources; the URI scheme prefix of a skylink. *)
Definition uriSkynetPrefix : string := "sia://".

(** [dropPrefix p s] is [Some rest] when [s] is [p] followed by [rest]. *)
Fixpoint dropPrefix (p s : string) : option string :=
  match p, s with
  | EmptyString, _ => Some s
  | String a p', String b s' =>
      if Ascii.eqb a b then dropPrefix p' s' else None
  | String _ _, EmptyString => None
  end.

Definition startsWith (p s : string) : bool :=
  match dropPrefix p s with Some _ => true | None => false end.

(** [formatSkylink] of [utils.js], a file of the repository that is not
    among the sources.  The helper formats a skylink by adding the URI
    prefix: the empty string and a skylink that already starts with the
    prefix are returned as they are, any other skylink with the prefix put
    in front, which is also what the sibling paths [uploadDirectory] and
    [uploadJSONdata] do to the skylink of the response. *)
Definition formatSkylink (skylink : string) : string :=
  if decide (skylink = EmptyString) then skylink
  else if startsWith uriSkynetPrefix skylink then skylink
  else uriSkynetPrefix +:+ skylink.

(** ** Options, requests and the portal *)

Definition Qltb (x y : Q) : bool := negb (Qle_bool y x).

(** [Number.isInteger(value)]. *)
Definition isInteger (value : Q) : bool :=
  Qeq_bool (inject_Z (Qfloor value)) value.

(** Modelled from the spec: [validateInteger] of [utils_validation.js],
    which is not among the sources.  The specification requires the value
    to be integral and fails with [InvalidArgument] otherwise. *)
Definition validateInteger (name : string) (value : Q) : result unit :=
  if isInteger value then Ok tt
  else throwValidationError name "an integer value".

(** The merged options [{...DEFAULT_UPLOAD_OPTIONS, ...this.customOptions,
    ...customOptions}], with the fields the upload paths read.
    [staggerPercent = None] stands for [undefined] and [null];
    [customFilename = EmptyString] for an absent (falsy) name. *)
Record uploadOptions : Type := {
  largeFileSize : Z;
  chunkSizeMultiplier : Q;
  numParallelUploads : Q;
  staggerPercent : option Q;
  retryDelays : list Z;
  dryRun : bool;
  customFilename : string;
  portalUrl : string;
  endpointPath : string;
  endpointLargeUpload : string;
  portalFileFieldname : string;
}.

(** The options handed to the resumable-transfer engine ([tusOpts] without
    the callbacks, which [uploadLargeFile] below runs on the engine's
    outcome). *)
Record tusOptions : Type := {
  tus_endpoint : string;
  tus_chunkSize : Z;
  tus_retryDelays : list Z;
  tus_filename : string;
  tus_parallelUploads : Z;
  tus_staggerPercent : option Q;
  tus_splitSizeIntoParts : option (Z → Z → result (list part));
}.

(** What the code asks of the outside world, in the order it asks. *)
Inductive request : Type :=
| Post (url fieldname filename : string) (dryrun : bool)
| TusStart (opts : tusOptions)
| Head (url : string).

(** How the engine's run ends: [onError(error)] with the error the
    callback passes on, or [onSuccess()] with the value of [upload.url]. *)
Inductive tusOutcome : Type :=
| TusFailed (msg : string)
| TusSucceeded (uploadUrl : option string).

(** The answers of the portal and of the file system.  A request the
    portal does not answer with success (a network error, a status other
    than 2xx) is rejected by [executeRequest]: the [Err] case of
    [postSkylink] and of [headHeaders]. *)
Record world : Type := {
  fileSize : string → Z;
  postSkylink : string → result string;
  tusRun : tusOptions → tusOutcome;
  headHeaders : string → result (gmap string string);
}.

(** A computation that may fail and that appends to the trace of requests
    issued so far. *)
Definition io (A : Type) : Type := list request → result A * list request.

Global Instance io_ret : MRet io := λ A a t, (Ok a, t).

Global Instance io_bind : MBind io := λ A B k m t,
  match m t with
  | (Ok a, t') => k a t'
  | (Err e, t') => (Err e, t')
  end.

Definition liftResult {A} (r : result A) : io A := λ t, (r, t).

Definition issue {A} (q : request) (answer : result A) : io A :=
  λ t, (answer, t ++ [q]).

(** A rejection awaited inside an [async] callback that the engine calls
    without awaiting it: the callback stops there, and the promise of the
    operation, which only the callback could settle, stays pending. *)
Definition uncaught {A} (r : result A) : result A :=
  match r with
  | Ok a => Ok a
  | Err cause => Err (Unsettled cause)
  end.

Definition isPost (q : request) : bool :=
  match q with Post _ _ _ _ => true | _ => false end.

(** [`${skylink}`] for a value that may be [undefined]. *)
Definition templateString (v : option string) : string :=
  default "undefined" v.

Section Upload.

(** [TUS_CHUNK_SIZE] is imported from [defaults.js], whose listing does
    not define it; [makeUrl] and [path.basename] come from [utils.js]
    and from Node. *)
Variable TUS_CHUNK_SIZE : Z.
Variable makeUrl : string → string → string.
Variable basename : string → string.

Definition uploadSmallFile (w : world) (filename : string)
    (opts : uploadOptions) : io string :=
  let url := makeUrl (portalUrl opts) (endpointPath opts) in
  responsedSkylink ←
    issue (Post url (portalFileFieldname opts) filename (dryRun opts))
          (postSkylink w url);
  let skylink := formatSkylink responsedSkylink in
  mret skylink.

(** The checks at the head of [uploadLargeFile]. *)
Definition validateLargeOptions (opts : uploadOptions) : result unit :=
  match staggerPercent opts with
  | Some p =>
      if Qltb p 0 || Qltb 100 p then
        Err (InvalidArgument "staggerPercent" "between 0 and 100")
      else Ok tt
  | None => Ok tt
  end ≫= λ _,
  (if Qltb (chunkSizeMultiplier opts) 1 then
     throwValidationError "opts.chunkSizeMultiplier"
                          "greater than or equal to 1"
   else Ok tt) ≫= λ _,
  validateInteger "opts.chunkSizeMultiplier" (chunkSizeMultiplier opts) ≫= λ _,
  (if Qltb (numParallelUploads opts) 1 then
     throwValidationError "opts.numParallelUploads"
                          "greater than or equal to 1"
   else Ok tt) ≫= λ _,
  validateInteger "opts.numParallelUploads" (numParallelUploads opts).

(** [Math.ceil(a / b)] for a positive [b]. *)
Definition ceilDiv (a b : Z) : Z := - ((- a) `div` b).

(** The part of [uploadLargeFile] between the checks and the promise:
    the engine's options.  It runs after the checks, so the two option
    values are integers and [Qfloor] is their value. *)
Definition buildTusOptions (filename : string) (filesize : Z)
    (opts : uploadOptions) : tusOptions :=
  let url := makeUrl (portalUrl opts) (endpointLargeUpload opts) in
  let parallelUploads := Qfloor (numParallelUploads opts) in
  let chunkSize := TUS_CHUNK_SIZE * Qfloor (chunkSizeMultiplier opts) in
  let numChunks := ceilDiv filesize TUS_CHUNK_SIZE in
  let parallelUploads :=
    if numChunks <? parallelUploads then numChunks else parallelUploads in
  let '(splitSizeIntoParts, staggerPercent) :=
    if 1 <? parallelUploads then
      (Some (λ totalSize partCount,
               splitSizeIntoChunkAlignedParts totalSize partCount chunkSize),
       staggerPercent opts)
    else (None, None) in
  {| tus_endpoint := url;
     tus_chunkSize := chunkSize;
     tus_retryDelays := retryDelays opts;
     tus_filename := filename;
     tus_parallelUploads := parallelUploads;
     tus_staggerPercent := staggerPercent;
     tus_splitSizeIntoParts := splitSizeIntoParts |}.

(** The partition of an upload of [totalSize] bytes: when the option is
    set the engine calls [splitSizeIntoParts(totalSize, parallelUploads)];
    when it is [null] there is one session and no partition. *)
Definition partitionPlan (t : tusOptions) (totalSize : Z)
    : option (result (list part)) :=
  (λ split, split totalSize (tus_parallelUploads t))
    <$> tus_splitSizeIntoParts t.

(** The [onSuccess] callback.  It calls [reject] when [upload.url] is not
    set and [resolve] after the probe; when the awaited probe is rejected
    it calls neither. *)
Definition onSuccess (w : world) (uploadUrl : option string) : io string :=
  match uploadUrl with
  | None => liftResult (Err (UploadIncomplete "'upload.url' was not set"))
  | Some url =>
      headers ← issue (Head url) (uncaught (headHeaders w url));
      let skylink := headers !! "skynet-skylink" in
      mret (uriSkynetPrefix +:+ templateString skylink)
  end.

Definition uploadLargeFile (w : world) (filename : string) (filesize : Z)
    (opts : uploadOptions) : io string :=
  _ ← liftResult (validateLargeOptions opts);
  let tusOpts := buildTusOptions filename filesize opts in
  outcome ← issue (TusStart tusOpts) (Ok (tusRun w tusOpts));
  match outcome with
  | TusFailed msg => liftResult (Err (TransportError msg))
  | TusSucceeded uploadUrl => onSuccess w uploadUrl
  end.

Definition uploadData (w : world) (data filename : string)
    (opts : uploadOptions) : io string :=
  let sizeInBytes := Z.of_nat (String.length data) in
  if sizeInBytes <? largeFileSize opts then
    uploadSmallFile w filename opts
  else uploadLargeFile w filename sizeInBytes opts.

Definition uploadFile (w : world) (path : string) (opts : uploadOptions)
    : io string :=
  let sizeInBytes := fileSize w path in
  let filename :=
    if decide (customFilename opts = EmptyString) then basename path
    else customFilename opts in
  if sizeInBytes <? largeFileSize opts then
    uploadSmallFile w filename opts
  else uploadLargeFile w filename sizeInBytes opts.

End Upload.

(** What it takes for the checks at the head of [uploadLargeFile] to
    reject the options. *)
Definition invalidLargeOptions (opts : uploadOptions) : Prop :=
  (chunkSizeMultiplier opts < 1)%Q
  ∨ isInteger (chunkSizeMultiplier opts) = false
  ∨ (numParallelUploads opts < 1)%Q
  ∨ isInteger (numParallelUploads opts) = false
  ∨ ∃ p, staggerPercent opts = Some p ∧ ((p < 0)%Q ∨ (100 < p)%Q).

(** ** Sample inputs *)

Definition sampleMakeUrl (portal path : string) : string := portal +:+ path.

Definition sampleBasename (path : string) : string := path.

(** Forty mebibytes, [(1 << 22) * 10]. *)
Definition sampleChunkSize : Z := 41943040.

Definition sampleOptions (multiplier parallel : Q) : uploadOptions :=
  {| largeFileSize := sampleChunkSize;
     chunkSizeMultiplier := multiplier;
     numParallelUploads := parallel;
     staggerPercent := None;
     retryDelays := [0; 5000; 15000; 45000];
     dryRun := false;
     customFilename := EmptyString;
     portalUrl := "https://siasky.net";
     endpointPath := "/skynet/skyfile";
     endpointLargeUpload := "/skynet/tus";
     portalFileFieldname := "file" |}.

(** A portal on which every transfer succeeds and whose answer to the
    final probe carries the given headers. *)
Definition sampleWorld (uploadUrl : option string)
    (headers : gmap string string) : world :=
  {| fileSize := λ _, 3 * sampleChunkSize;
     postSkylink := λ _, Ok sampleSkylink;
     tusRun := λ _, TusSucceeded uploadUrl;
     headHeaders := λ _, Ok headers |}.

Definition sampleUploadUrl : string := "https://siasky.net/skynet/tus/7f3a".


(** ** Offsets and parts *)

(** Byte offset [x] lies in the half-open range of [p]. *)
Definition inPart (x : Z) (p : part) : Prop := start p ≤ x < end_ p.

(** The number of whole chunks the round-robin loop gives part [j] when it
    deals [numFullChunks] chunks to [partCount] parts. *)
Definition chunksOfPart (numFullChunks partCount j : Z) : Z :=
  numFullChunks `div` partCount
  + (if decide (j < numFullChunks `mod` partCount) then 1 else 0).

(** ** Request headers and [executeRequest] (client.js) *)

(** [buildRequestHeaders(baseHeaders, customUserAgent, customCookie)].  The
    two custom values are strings; the empty string is the falsy one. *)
Definition buildRequestHeaders (baseHeaders : gmap string string)
    (customUserAgent customCookie : string) : gmap string string :=
  let returnHeaders := baseHeaders in
  let returnHeaders :=
    if decide (customUserAgent = EmptyString) then returnHeaders
    else <["User-Agent" := customUserAgent]> returnHeaders in
  let returnHeaders :=
    if decide (customCookie = EmptyString) then returnHeaders
    else <["Cookie" := customCookie]> returnHeaders in
  returnHeaders.

(** The fields of [config] that [executeRequest] computes with; [data],
    [params], [responseType] and the progress callback are handed to axios
    as they are.  [cfg_url = EmptyString] stands for an absent [url],
    [cfg_extraPath = EmptyString] for an absent [extraPath] and
    [cfg_APIKey = EmptyString] for an absent key. *)
Record requestConfig : Type := {
  cfg_url : string;
  cfg_portalUrl : string;
  cfg_endpointPath : string;
  cfg_extraPath : string;
  cfg_method : string;
  cfg_headers : gmap string string;
  cfg_customUserAgent : string;
  cfg_customCookie : string;
  cfg_APIKey : string;
}.

(** What [executeRequest] hands to axios. *)
Record axiosRequest : Type := {
  ax_url : string;
  ax_method : string;
  ax_headers : gmap string string;
  ax_auth : option (string * string);
}.

Section Client.

(** [makeUrl] of [utils.js], here with the three arguments
    [executeRequest] gives it. *)
Variable makeUrl3 : string → string → string → string.

Definition executeRequest (config : requestConfig) : axiosRequest :=
  let url :=
    if decide (cfg_url config = EmptyString) then
      makeUrl3 (cfg_portalUrl config) (cfg_endpointPath config)
        (if decide (cfg_extraPath config = EmptyString) then EmptyString
         else cfg_extraPath config)
    else cfg_url config in
  let headers :=
    buildRequestHeaders (cfg_headers config) (cfg_customUserAgent config)
      (cfg_customCookie config) in
  {| ax_url := url;
     ax_method := cfg_method config;
     ax_headers := headers;
     ax_auth :=
       if decide (cfg_APIKey config = EmptyString) then None
       else Some (EmptyString, cfg_APIKey config) |}.

(** The configuration of the HEAD probe in [onSuccess]:
    [{...opts, url: upload.url, endpointPath: opts.endpointLargeUpload,
      method: "head", headers: {...headers, "Tus-Resumable": "1.0.0"}}],
    where [headers] is what [uploadLargeFile] built with
    [buildRequestHeaders({}, opts.customUserAgent, opts.customCookie)]. *)
Definition probeConfig (opts : uploadOptions)
    (customUserAgent customCookie APIKey : string) (uploadUrl : string)
    : requestConfig :=
  let headers := buildRequestHeaders ∅ customUserAgent customCookie in
  {| cfg_url := uploadUrl;
     cfg_portalUrl := portalUrl opts;
     cfg_endpointPath := endpointLargeUpload opts;
     cfg_extraPath := EmptyString;
     cfg_method := "head";
     cfg_headers := <["Tus-Resumable" := "1.0.0"]> headers;
     cfg_customUserAgent := customUserAgent;
     cfg_customCookie := customCookie;
     cfg_APIKey := APIKey |}.

End Client.

(** ** [uploadJSONdata] (defaults.js) *)

Record jsonUpload : Type := {
  json_skylink : string;
  json_shortskylink : string;
}.

Section JsonUpload.

Variable makeUrl : string → string → string.

Definition uploadJSONdata (w : world) (dataKey : string)
    (opts : uploadOptions) : io jsonUpload :=
  let url := makeUrl (portalUrl opts) (endpointPath opts) in
  short_skylink ←
    issue (Post url (portalFileFieldname opts) dataKey (dryRun opts))
          (postSkylink w url);
  let skylink := uriSkynetPrefix +:+ short_skylink in
  mret {| json_skylink := skylink; json_shortskylink := short_skylink |}.

End JsonUpload.

(** ** [uploadDirectory] (upload.js) *)

(** [s.replace(pat, "")] for a string pattern: the first occurrence of
    [pat] in [s] is removed. *)
Fixpoint removeFirst (pat s : string) {struct s} : string :=
  match dropPrefix pat s with
  | Some rest => rest
  | None =>
      match s with
      | EmptyString => EmptyString
      | String c s' => String c (removeFirst pat s')
      end
  end.

(** [s.endsWith(c)] for a single character. *)
Fixpoint endsWithChar (c : ascii) (s : string) : bool :=
  match s with
  | EmptyString => false
  | String d EmptyString => Ascii.eqb d c
  | String _ rest => endsWithChar c rest
  end.

(** [s.slice(1)]. *)
Definition slice1 (s : string) : string :=
  match s with
  | EmptyString => EmptyString
  | String _ rest => rest
  end.

Section Directory.

(** The values of [tryFiles] and [errorPages] and [JSON.stringify] on
    them; [makeUrl] of [utils.js]. *)
Variable json : Type.
Variable stringify : json → string.
Variable makeUrl : string → string → string.

(** The file system as [uploadDirectory] sees it: [fs.promises.stat(path)]
    (which may reject) with [isDirectory()], [walkDirectory] of [utils.js],
    and [path.resolve], [path.normalize], [path.basename] of Node. *)
Record fileSystem : Type := {
  statIsDirectory : string → result bool;
  walkDirectory : string → list string;
  resolve : string → string;
  normalize : string → string;
  dirBasename : string → string;
}.

(** The merged options of [uploadDirectory]: the upload options and the
    fields only the directory upload reads.  [customDirname = EmptyString]
    stands for an absent name; [tryFiles] and [errorPages] are objects, so
    they are truthy whenever present. *)
Record directoryOptions : Type := {
  dir_upload : uploadOptions;
  portalDirectoryFileFieldname : string;
  customDirname : string;
  tryFiles : option json;
  errorPages : option json;
  disableDefaultPath : bool;
}.

(** The POST of a directory: the form entries [(file, filepath)] in the
    order they were appended, and the query parameters. *)
Record directoryPost : Type := {
  dp_url : string;
  dp_fieldname : string;
  dp_files : list (string * string);
  dp_filename : string;
  dp_tryfiles : option string;
  dp_errorpages : option string;
  dp_disableDefaultPath : bool;
  dp_dryrun : bool;
}.

(** The base path the file names are made relative to. *)
Definition directoryBasepath (fs : fileSystem) (path : string) : string :=
  let basepath := path in
  if endsWithChar "/" basepath then basepath
  else normalize fs (basepath +:+ "/").

(** The body of the loop over [walkDirectory(path)]: the form entry of
    one file. *)
Definition directoryEntry (basepath file : string) : string * string :=
  let filename :=
    if startsWith basepath file then removeFirst basepath file else file in
  (file, filename).

(** The [filename] parameter. *)
Definition directoryName (fs : fileSystem) (path : string)
    (opts : directoryOptions) : string :=
  let filename :=
    if decide (customDirname opts = EmptyString) then dirBasename fs path
    else customDirname opts in
  if startsWith "/" filename then slice1 filename else filename.

(** [uploadDirectory]: the result and the requests issued.  [answer] is
    the [skylink] field of the portal's response to the POST, or the
    rejection of the request. *)
Definition uploadDirectory (fs : fileSystem)
    (answer : directoryPost → result string) (path : string)
    (opts : directoryOptions) : result string * list directoryPost :=
  match statIsDirectory fs path with
  | Err e => (Err e, [])
  | Ok false =>
      (Err (InvalidArgument "path" "Given path is not a directory"), [])
  | Ok true =>
      let path := resolve fs path in
      let basepath := directoryBasepath fs path in
      let files := directoryEntry basepath <$> walkDirectory fs path in
      let post :=
        {| dp_url := makeUrl (portalUrl (dir_upload opts))
                       (endpointPath (dir_upload opts));
           dp_fieldname := portalDirectoryFileFieldname opts;
           dp_files := files;
           dp_filename := directoryName fs path opts;
           dp_tryfiles := stringify <$> tryFiles opts;
           dp_errorpages := stringify <$> errorPages opts;
           dp_disableDefaultPath := disableDefaultPath opts;
           dp_dryrun := dryRun (dir_upload opts) |} in
      match answer post with
      | Ok skylink => (Ok (uriSkynetPrefix +:+ skylink), [post])
      | Err e => (Err e, [post])
      end
  end.

End Directory.

(** A directory tree with two files below [/srv/site] and, as a walk
    could return through a link, one outside it. *)
Definition sampleFileSystem (isDirectory : bool) : fileSystem :=
  {| statIsDirectory := λ _, Ok isDirectory;
     walkDirectory := λ _, [ "/srv/site/index.html";
                             "/srv/site/css/main.css";
                             "/tmp/other.txt" ];
     resolve := λ path, path;
     normalize := λ path, path;
     dirBasename := λ _, "site" |}.

Definition sampleDirectoryOptions : directoryOptions string :=
  {| dir_upload := sampleOptions 1 1;
     portalDirectoryFileFieldname := "files[]";
     customDirname := EmptyString;
     tryFiles := None;
     errorPages := None;
     disableDefaultPath := false |}.

(** * Properties *)

(** ** Sums and in-place additions *)

Lemma sumZ_cons (x : Z) (l : list Z) : sumZ (x :: l) = x + sumZ l.
Proof. reflexivity. Qed.

Lemma sumZ_app (l1 l2 : list Z) : sumZ (l1 ++ l2) = sumZ l1 + sumZ l2.
Proof. induction l1 as [|x l1 IH]; simpl; [done | rewrite IH; lia]. Qed.

Lemma addAt_length v i (l : list Z) : length (addAt v i l) = length l.
Proof. apply length_alter. Qed.

Lemma sumZ_alter_add v (l : list Z) (i : nat) :
  (i < length l)%nat → sumZ (alter (λ x, x + v) i l) = sumZ l + v.
Proof.
  revert i. induction l as [|x l IH]; intros [|i] Hi; simpl in *; try lia.
  change (x + sumZ (alter (λ x, x + v) i l) = x + sumZ l + v).
  rewrite IH by lia. lia.
Qed.

Lemma sumZ_addAt v i (l : list Z) :
  0 ≤ i < Z.of_nat (length l) → sumZ (addAt v i l) = sumZ l + v.
Proof. intros Hi. apply sumZ_alter_add. lia. Qed.

Lemma lookup_addAt v i (l : list Z) (j : nat) :
  0 ≤ i →
  addAt v i l !! j
  = (λ x, x + (if decide (i = Z.of_nat j) then v else 0)) <$> l !! j.
Proof.
  intros Hi. unfold addAt. destruct (decide (i = Z.of_nat j)) as [->|Hne].
  - rewrite Nat2Z.id, list_lookup_alter_eq. done.
  - rewrite list_lookup_alter_ne by lia.
    destruct (l !! j); simpl; [f_equal; lia | done].
Qed.

(** The index of the whole-chunk loop is inside the array. *)
Lemma chunk_index_in_range (i partCount : Z) :
  1 ≤ partCount → 0 ≤ i `mod` partCount < partCount.
Proof. intros. apply Z.mod_pos_bound. lia. Qed.

(** So is the index that receives the leftover. *)
Lemma lastIndex_in_range (numFullChunks partCount : Z) :
  1 ≤ partCount → 0 ≤ numFullChunks →
  0 ≤ Z.min numFullChunks (partCount - 1) < partCount.
Proof. lia. Qed.

(** ** The whole-chunk loop *)

Section ChunkLoop.

Variables (partCount chunkSize : Z).
Hypothesis partCount_pos : 1 ≤ partCount.

Local Abbreviation step := (assignChunk partCount chunkSize).

Lemma foldl_step_length (idxs : list Z) (sizes : list Z) :
  length (foldl step sizes idxs) = length sizes.
Proof.
  revert sizes. induction idxs as [|i idxs IH]; intros sizes; simpl; [done|].
  rewrite IH. apply addAt_length.
Qed.

Lemma foldl_step_sum (idxs : list Z) (sizes : list Z) :
  Z.of_nat (length sizes) = partCount →
  sumZ (foldl step sizes idxs)
  = sumZ sizes + Z.of_nat (length idxs) * chunkSize.
Proof.
  revert sizes. induction idxs as [|i idxs IH]; intros sizes Hlen.
  - simpl. lia.
  - cbn [foldl length]. rewrite IH by (unfold assignChunk; rewrite addAt_length; done).
    unfold assignChunk. rewrite sumZ_addAt.
    + lia.
    + rewrite Hlen. by apply chunk_index_in_range.
Qed.

Lemma foldl_step_lookup (idxs : list Z) (sizes : list Z) (j : nat) :
  foldl step sizes idxs !! j
  = (λ x, x + sumZ ((λ i, if decide (i `mod` partCount = Z.of_nat j)
                          then chunkSize else 0) <$> idxs))
      <$> sizes !! j.
Proof.
  revert sizes. induction idxs as [|i idxs IH]; intros sizes.
  - simpl. destruct (sizes !! j); simpl; [f_equal; lia | done].
  - cbn [foldl]. rewrite IH. unfold assignChunk.
    rewrite lookup_addAt by (by apply chunk_index_in_range).
    rewrite fmap_cons, sumZ_cons.
    destruct (sizes !! j) as [z|]; [|done].
    cbn [fmap option_fmap option_map]. f_equal. lia.
Qed.

Lemma foldl_step_multiples (idxs : list Z) (sizes : list Z) :
  Forall (λ x, x `mod` chunkSize = 0) sizes →
  Forall (λ x, x `mod` chunkSize = 0) (foldl step sizes idxs).
Proof.
  revert sizes. induction idxs as [|i idxs IH]; intros sizes Hall; [done|].
  cbn [foldl]. apply IH. unfold assignChunk, addAt. apply Forall_alter; [done|].
  intros x _ Hx. simpl in Hx.
  destruct (decide (chunkSize = 0)) as [->|Hc].
  - rewrite Z.mod_0_r in *. lia.
  - rewrite Z.add_mod, Hx, Z.mod_same, Z.mod_0_l by done. done.
Qed.

Lemma foldl_step_nonneg (idxs : list Z) (sizes : list Z) :
  0 ≤ chunkSize →
  Forall (λ x, 0 ≤ x) sizes → Forall (λ x, 0 ≤ x) (foldl step sizes idxs).
Proof.
  intros Hc. revert sizes.
  induction idxs as [|i idxs IH]; intros sizes Hall; [done|].
  cbn [foldl]. apply IH. unfold assignChunk, addAt. apply Forall_alter; [done|].
  intros x _ Hx. simpl in *. lia.
Qed.

End ChunkLoop.

(** ** From sizes to ranges *)

Lemma sizesToParts_length b (sizes : list Z) :
  length (sizesToParts b sizes) = length sizes.
Proof.
  revert b. induction sizes as [|s sizes IH]; intros b; simpl; [done|].
  by rewrite IH.
Qed.

Lemma sizesToParts_lengths b (sizes : list Z) :
  part_length <$> sizesToParts b sizes = sizes.
Proof.
  revert b. induction sizes as [|s sizes IH]; intros b; [done|].
  cbn [sizesToParts fmap list_fmap]. fold (fmap (M:=list) part_length).
  rewrite IH. f_equal. unfold part_length. simpl. lia.
Qed.

Lemma sizesToParts_lookup b (sizes : list Z) (j : nat) (p : part) :
  sizesToParts b sizes !! j = Some p →
  start p = b + sumZ (take j sizes)
  ∧ end_ p = b + sumZ (take (S j) sizes)
  ∧ sizes !! j = Some (part_length p).
Proof.
  revert b j. induction sizes as [|s sizes IH]; intros b j; [done|].
  destruct j as [|j]; simpl.
  - intros [= <-]. unfold part_length. simpl. repeat split; try lia.
    f_equal. lia.
  - intros Hp. apply IH in Hp as (Hs & He & Hl). simpl in He.
    change (sumZ (s :: ?l)) with (s + sumZ l).
    repeat split; [lia | | done].
    rewrite He. unfold sumZ. simpl. lia.
Qed.

Lemma sizesToParts_contiguous b (sizes : list Z) (j : nat) (p q : part) :
  sizesToParts b sizes !! j = Some p →
  sizesToParts b sizes !! S j = Some q →
  end_ p = start q.
Proof.
  intros Hp Hq.
  apply sizesToParts_lookup in Hp as (_ & -> & _).
  apply sizesToParts_lookup in Hq as (-> & _ & _). done.
Qed.

Lemma sizesToParts_last b (sizes : list Z) (p : part) :
  last (sizesToParts b sizes) = Some p → end_ p = b + sumZ sizes.
Proof.
  rewrite last_lookup, sizesToParts_length. intros Hp.
  destruct sizes as [|s sizes]; [done|].
  apply sizesToParts_lookup in Hp as (_ & -> & _).
  rewrite take_ge; [done|]. simpl. lia.
Qed.

(** ** The sizes computed for a valid call *)

Section ValidCall.

Variables (totalSize partCount chunkSize : Z).
Hypothesis partCount_pos : 1 ≤ partCount.
Hypothesis chunkSize_pos : 1 ≤ chunkSize.
Hypothesis total_gt_chunk : chunkSize < totalSize.

Lemma numFullChunks_pos : 1 ≤ totalSize `div` chunkSize.
Proof. apply Z.div_le_lower_bound; lia. Qed.

Lemma leftover_bound : 0 ≤ totalSize `mod` chunkSize < chunkSize.
Proof. apply Z.mod_pos_bound. lia. Qed.

Lemma split_ok :
  splitSizeIntoChunkAlignedParts totalSize partCount chunkSize
  = Ok (sizesToParts 0 (partSizesOf totalSize partCount chunkSize)).
Proof.
  unfold splitSizeIntoChunkAlignedParts.
  destruct (Z.ltb_spec partCount 1); [lia|].
  destruct (Z.ltb_spec chunkSize 1); [lia|].
  destruct (Z.leb_spec totalSize chunkSize); [lia|]. done.
Qed.

Lemma partSizesOf_length :
  Z.of_nat (length (partSizesOf totalSize partCount chunkSize)) = partCount.
Proof.
  unfold partSizesOf, assignChunks.
  destruct (0 <? _); rewrite ?addAt_length, foldl_step_length,
    length_replicate; lia.
Qed.

Lemma partSizesOf_sum :
  sumZ (partSizesOf totalSize partCount chunkSize) = totalSize.
Proof.
  pose proof numFullChunks_pos as Hn. pose proof leftover_bound as Hl.
  assert (Hloop : sumZ (assignChunks partCount chunkSize
                          (totalSize `div` chunkSize)
                          (replicate (Z.to_nat partCount) 0))
                  = totalSize `div` chunkSize * chunkSize).
  { unfold assignChunks. rewrite foldl_step_sum.
    - rewrite length_seqZ, Z2Nat.id by lia.
      assert (sumZ (replicate (Z.to_nat partCount) 0) = 0) as ->; [|lia].
      induction (Z.to_nat partCount) as [|n IH]; [done|].
      change (0 + sumZ (replicate n 0) = 0). lia.
    - done.
    - rewrite length_replicate. lia. }
  unfold partSizesOf. destruct (Z.ltb_spec 0 (totalSize `mod` chunkSize)).
  - rewrite sumZ_addAt, Hloop.
    + pose proof (Z.div_mod totalSize chunkSize). lia.
    + unfold assignChunks.
      rewrite foldl_step_length, length_replicate. lia.
  - rewrite Hloop. pose proof (Z.div_mod totalSize chunkSize). lia.
Qed.

Lemma partSizesOf_nonneg :
  Forall (λ x, 0 ≤ x) (partSizesOf totalSize partCount chunkSize).
Proof.
  pose proof leftover_bound as Hl.
  assert (Forall (λ x, 0 ≤ x)
            (assignChunks partCount chunkSize (totalSize `div` chunkSize)
               (replicate (Z.to_nat partCount) 0))) as Hloop.
  { apply foldl_step_nonneg; [lia|]. by apply Forall_replicate. }
  unfold partSizesOf. destruct (0 <? _); [|done].
  unfold addAt. apply Forall_alter; [done|]. intros x _ Hx. simpl in *. lia.
Qed.

(** Entry [j] of the array is the size the specification gives part [j]. *)
Lemma partSizesOf_lookup (j : nat) :
  Z.of_nat j < partCount →
  partSizesOf totalSize partCount chunkSize !! j
  = Some (spec_partSize totalSize partCount chunkSize (Z.of_nat j)).
Proof.
  intros Hj. pose proof numFullChunks_pos as Hn.
  pose proof leftover_bound as Hl.
  unfold partSizesOf, spec_partSize, assignChunks.
  destruct (Z.ltb_spec 0 (totalSize `mod` chunkSize)) as [Hpos|Hzero].
  - rewrite lookup_addAt by lia.
    rewrite foldl_step_lookup by done.
    rewrite lookup_replicate_2 by lia.
    cbn [fmap option_fmap option_map]. f_equal.
    do 2 case_decide; lia.
  - rewrite foldl_step_lookup by done.
    rewrite lookup_replicate_2 by lia.
    cbn [fmap option_fmap option_map]. f_equal.
    case_decide; lia.
Qed.

Lemma partSizesOf_spec :
  partSizesOf totalSize partCount chunkSize
  = spec_partSize totalSize partCount chunkSize <$> seqZ 0 partCount.
Proof.
  apply list_eq. intros j. rewrite list_lookup_fmap.
  destruct (decide (Z.of_nat j < partCount)) as [Hj|Hj].
  - rewrite partSizesOf_lookup, lookup_seqZ_lt by done. done.
  - rewrite lookup_seqZ_ge by lia.
    apply lookup_ge_None. pose proof partSizesOf_length. lia.
Qed.

(** Every entry but the one that received the leftover is a whole number
    of chunks. *)
Lemma partSizesOf_aligned (j : nat) (x : Z) :
  partSizesOf totalSize partCount chunkSize !! j = Some x →
  Z.of_nat j ≠ Z.min (totalSize `div` chunkSize) (partCount - 1) →
  x `mod` chunkSize = 0.
Proof.
  intros Hx Hj. pose proof numFullChunks_pos as Hn.
  assert (Forall (λ x, x `mod` chunkSize = 0)
            (assignChunks partCount chunkSize (totalSize `div` chunkSize)
               (replicate (Z.to_nat partCount) 0))) as Hloop.
  { apply foldl_step_multiples. apply Forall_replicate.
    apply Z.mod_0_l. lia. }
  rewrite Forall_lookup in Hloop.
  unfold partSizesOf in Hx. destruct (0 <? _).
  - unfold addAt in Hx. rewrite list_lookup_alter_ne in Hx by lia. eauto.
  - eauto.
Qed.

End ValidCall.

(** ** ChunkPartitioner: the claims *)

Lemma filter_none {A} (P : A → Prop) `{∀ x, Decision (P x)} (l : list A) :
  (∀ j x, l !! j = Some x → ¬ P x) → filter P l = [].
Proof.
  induction l as [|b l IHl]; intros Hall; [done|].
  rewrite filter_cons_False by (apply (Hall 0%nat); done).
  apply IHl. intros j x Hx. apply (Hall (S j)). done.
Qed.

Lemma filter_at_most_one {A} (P : A → Prop) `{∀ x, Decision (P x)}
    (l : list A) (k : nat) :
  (∀ j x, l !! j = Some x → j ≠ k → ¬ P x) →
  (length (filter P l) ≤ 1)%nat.
Proof.
  revert k. induction l as [|a l IH]; intros k Hk; [simpl; lia|].
  destruct k as [|k].
  - rewrite filter_cons, (filter_none P l).
    + destruct (decide (P a)); simpl; lia.
    + intros j x Hx. apply (Hk (S j)); done.
  - rewrite filter_cons_False by (apply (Hk 0%nat); done).
    apply (IH k). intros j x Hx Hj. apply (Hk (S j)); [done | lia].
Qed.

(** C1. For [totalSize >= 1], [partCount >= 1], [chunkSize >= 1] and
    [totalSize > chunkSize], [splitSizeIntoChunkAlignedParts] returns a
    partition with exactly [partCount] parts; the first part starts at 0,
    each part ends where the next one starts, no part ends before it
    starts, the lengths of the parts sum to [totalSize] and the last part
    ends at [totalSize]. *)
Theorem split_is_contiguous_partition (totalSize partCount chunkSize : Z) :
  1 ≤ totalSize → 1 ≤ partCount → 1 ≤ chunkSize → chunkSize < totalSize →
  ∃ parts,
    splitSizeIntoChunkAlignedParts totalSize partCount chunkSize = Ok parts
    ∧ Z.of_nat (length parts) = partCount
    ∧ (∃ p, head parts = Some p ∧ start p = 0)
    ∧ (∀ i p q, parts !! i = Some p → parts !! S i = Some q →
                end_ p = start q)
    ∧ (∀ i p, parts !! i = Some p → start p ≤ end_ p)
    ∧ sumZ (part_length <$> parts) = totalSize
    ∧ (∃ p, last parts = Some p ∧ end_ p = totalSize).
Proof.
  intros _ Hp Hc Ht.
  assert (Hlen : Z.of_nat (length (partSizesOf totalSize partCount chunkSize))
                 = partCount) by (apply partSizesOf_length; lia).
  assert (Hsum : sumZ (partSizesOf totalSize partCount chunkSize) = totalSize)
    by (apply partSizesOf_sum; lia).
  assert (Hnn : Forall (λ x, 0 ≤ x) (partSizesOf totalSize partCount chunkSize))
    by (apply partSizesOf_nonneg; lia).
  eexists. split; [by apply split_ok|].
  set (sizes := partSizesOf totalSize partCount chunkSize) in *.
  assert (Hl : (0 < length (sizesToParts 0 sizes))%nat)
    by (rewrite sizesToParts_length; lia).
  repeat split.
  - rewrite sizesToParts_length. done.
  - rewrite head_lookup.
    destruct (lookup_lt_is_Some_2 _ _ Hl) as [p Hp0].
    exists p. split; [done|].
    apply sizesToParts_lookup in Hp0 as (-> & _ & _). done.
  - intros i p q. apply sizesToParts_contiguous.
  - intros i p Hi. apply sizesToParts_lookup in Hi as (_ & _ & Hi).
    rewrite Forall_lookup in Hnn. apply Hnn in Hi. unfold part_length in Hi. lia.
  - rewrite sizesToParts_lengths. done.
  - rewrite last_lookup.
    destruct (lookup_lt_is_Some_2 (sizesToParts 0 sizes)
                (pred (length (sizesToParts 0 sizes)))) as [p Hpl]; [lia|].
    exists p. split; [done|].
    rewrite <- last_lookup in Hpl. apply sizesToParts_last in Hpl. lia.
Qed.

Lemma split_is_contiguous_partition_witness :
  ∃ parts,
    splitSizeIntoChunkAlignedParts 150 2 100 = Ok parts
    ∧ Z.of_nat (length parts) = 2
    ∧ (∃ p, head parts = Some p ∧ start p = 0)
    ∧ (∀ i p q, parts !! i = Some p → parts !! S i = Some q →
                end_ p = start q)
    ∧ (∀ i p, parts !! i = Some p → start p ≤ end_ p)
    ∧ sumZ (part_length <$> parts) = 150
    ∧ (∃ p, last parts = Some p ∧ end_ p = 150).
Proof. apply (split_is_contiguous_partition 150 2 100); lia. Defined.

(** C2. When [splitSizeIntoChunkAlignedParts] succeeds on
    [totalSize > chunkSize >= 1] and [partCount >= 1], at most one part of
    the result has a length that is not an exact multiple of [chunkSize]:
    every part other than the one at index
    [min(floor(totalSize / chunkSize), partCount - 1)] is a whole number of
    chunks long. *)
Theorem split_at_most_one_unaligned (totalSize partCount chunkSize : Z)
    (parts : list part) :
  chunkSize < totalSize → 1 ≤ chunkSize → 1 ≤ partCount →
  splitSizeIntoChunkAlignedParts totalSize partCount chunkSize = Ok parts →
  (length (filter (unaligned chunkSize) parts) ≤ 1)%nat
  ∧ ∀ j p, parts !! j = Some p →
           Z.of_nat j ≠ Z.min (totalSize `div` chunkSize) (partCount - 1) →
           aligned chunkSize p.
Proof.
  intros Ht Hc Hp. rewrite split_ok by done. intros [= <-].
  assert (Hal : ∀ j p,
    sizesToParts 0 (partSizesOf totalSize partCount chunkSize) !! j = Some p →
    Z.of_nat j ≠ Z.min (totalSize `div` chunkSize) (partCount - 1) →
    aligned chunkSize p).
  { intros j p Hj Hne. apply sizesToParts_lookup in Hj as (_ & _ & Hj).
    unfold aligned. eapply partSizesOf_aligned; eauto. }
  split; [|done].
  apply (filter_at_most_one _ _
           (Z.to_nat (Z.min (totalSize `div` chunkSize) (partCount - 1)))).
  intros j p Hj Hne Hun. apply Hun. apply (Hal j p Hj).
  assert (1 ≤ totalSize `div` chunkSize) by (apply numFullChunks_pos; lia).
  lia.
Qed.

Lemma split_at_most_one_unaligned_witness :
  (length (filter (unaligned 100)
             [ {| start := 0; end_ := 100 |};
               {| start := 100; end_ := 150 |} ]) ≤ 1)%nat
  ∧ ∀ j p, [ {| start := 0; end_ := 100 |};
             {| start := 100; end_ := 150 |} ] !! j = Some p →
           Z.of_nat j ≠ Z.min (150 `div` 100) (2 - 1) →
           aligned 100 p.
Proof.
  apply (split_at_most_one_unaligned 150 2 100); [lia | lia | lia |].
  reflexivity.
Defined.

Lemma take_seqZ (m j n : Z) :
  0 ≤ j ≤ n → take (Z.to_nat j) (seqZ m n) = seqZ m j.
Proof.
  intros Hj. replace n with (j + (n - j)) by lia.
  rewrite seqZ_app by lia.
  rewrite take_app_length'; [done|]. by rewrite length_seqZ.
Qed.

(** Running offsets over a table of sizes [f 0, ..., f (n-1)]. *)
Lemma sizesToParts_table (f : Z → Z) (n : Z) :
  sizesToParts 0 (f <$> seqZ 0 n)
  = (λ j, {| start := sumZ (f <$> seqZ 0 j);
             end_ := sumZ (f <$> seqZ 0 j) + f j |}) <$> seqZ 0 n.
Proof.
  apply list_eq. intros j. rewrite list_lookup_fmap.
  destruct (decide (Z.of_nat j < n)) as [Hj|Hj].
  - rewrite lookup_seqZ_lt by done. simpl.
    destruct (lookup_lt_is_Some_2 (sizesToParts 0 (f <$> seqZ 0 n)) j)
      as [p Hp].
    { rewrite sizesToParts_length, length_fmap, length_seqZ. lia. }
    rewrite Hp. f_equal.
    apply sizesToParts_lookup in Hp as (Hs & He & Hl).
    rewrite list_lookup_fmap, lookup_seqZ_lt in Hl by done.
    simpl in Hl. injection Hl as Hl.
    rewrite <- fmap_take in Hs.
    rewrite <- (Nat2Z.id j), take_seqZ in Hs by lia.
    destruct p as [s e]. unfold part_length in Hl. simpl in *.
    rewrite !Z.add_0_l in *. f_equal; lia.
  - rewrite lookup_seqZ_ge by lia. simpl.
    apply lookup_ge_None.
    rewrite sizesToParts_length, length_fmap, length_seqZ. lia.
Qed.

(** C3. On a valid call the ranges returned by
    [splitSizeIntoChunkAlignedParts] are the ones the specification's
    algorithm describes: part [j] has the size made of one [chunkSize] for
    every whole chunk [i < floor(totalSize / chunkSize)] with
    [i mod partCount = j], plus the leftover [totalSize mod chunkSize] when
    that is positive and [j = min(fullChunks, partCount - 1)]; its range
    starts at the sum of the sizes before it.  For [totalSize = 150],
    [chunkSize = 100], [partCount = 2] the ranges are
    [(0,100), (100,150)]. *)
Theorem split_refines_spec :
  (∀ totalSize partCount chunkSize,
     1 ≤ partCount → 1 ≤ chunkSize → chunkSize < totalSize →
     splitSizeIntoChunkAlignedParts totalSize partCount chunkSize
     = Ok (spec_parts totalSize partCount chunkSize))
  ∧ splitSizeIntoChunkAlignedParts 150 2 100
    = Ok [ {| start := 0; end_ := 100 |}; {| start := 100; end_ := 150 |} ].
Proof.
  split; [|reflexivity].
  intros totalSize partCount chunkSize Hp Hc Ht.
  rewrite split_ok, partSizesOf_spec by done.
  f_equal. apply sizesToParts_table.
Qed.

Lemma split_refines_spec_witness :
  splitSizeIntoChunkAlignedParts 7 3 2 = Ok (spec_parts 7 3 2)
  ∧ spec_parts 7 3 2
    = [ {| start := 0; end_ := 2 |}; {| start := 2; end_ := 4 |};
        {| start := 4; end_ := 7 |} ].
Proof.
  split; [apply (proj1 split_refines_spec 7 3 2); lia | reflexivity].
Defined.

(** C4, as the code has it.  [splitSizeIntoChunkAlignedParts] fails, with
    a validation error, exactly when [partCount < 1], [chunkSize < 1] or
    [totalSize <= chunkSize], whatever the part count; otherwise it
    succeeds.  For [totalSize > chunkSize >= 1], a call with
    [partCount = 1] returns the single part [[0, totalSize)]. *)
Theorem split_fails_iff (totalSize partCount chunkSize : Z) :
  (isInvalidArgument
     (splitSizeIntoChunkAlignedParts totalSize partCount chunkSize) = true
   ↔ partCount < 1 ∨ chunkSize < 1 ∨ totalSize ≤ chunkSize)
  ∧ (isOk (splitSizeIntoChunkAlignedParts totalSize partCount chunkSize)
     = negb (isInvalidArgument
               (splitSizeIntoChunkAlignedParts totalSize partCount chunkSize)))
  ∧ (1 ≤ chunkSize → chunkSize < totalSize →
     splitSizeIntoChunkAlignedParts totalSize 1 chunkSize
     = Ok [ {| start := 0; end_ := totalSize |} ]).
Proof.
  split; [|split].
  - unfold splitSizeIntoChunkAlignedParts.
    destruct (Z.ltb_spec partCount 1); [simpl; intuition lia|].
    destruct (Z.ltb_spec chunkSize 1); [simpl; intuition lia|].
    destruct (Z.leb_spec totalSize chunkSize); simpl; [intuition lia|].
    split; [done | lia].
  - unfold splitSizeIntoChunkAlignedParts.
    by repeat (destruct (_ <? _) || destruct (_ <=? _)).
  - intros Hc Ht. rewrite split_ok by lia. f_equal.
    assert (Hlen : Z.of_nat (length (partSizesOf totalSize 1 chunkSize)) = 1)
      by (apply partSizesOf_length; lia).
    assert (Hsum : sumZ (partSizesOf totalSize 1 chunkSize) = totalSize)
      by (apply partSizesOf_sum; lia).
    destruct (partSizesOf totalSize 1 chunkSize) as [|s [|s' rest]];
      simpl in Hlen; try lia.
    unfold sumZ in Hsum. simpl in *. f_equal. f_equal. lia.
Qed.

Lemma split_fails_iff_witness :
  splitSizeIntoChunkAlignedParts 150 1 100
  = Ok [ {| start := 0; end_ := 150 |} ].
Proof. apply (proj2 (proj2 (split_fails_iff 150 1 100))); lia. Defined.

(** C4, the claim as stated fails: with [totalSize = 50], [chunkSize = 100]
    and [partCount = 1] none of the three stated conditions holds, yet the
    call fails instead of returning the single part [[0, 50)]. *)
Lemma split_single_part_small_total_fails :
  splitSizeIntoChunkAlignedParts 50 1 100
  = Err (InvalidArgument "totalSize" "greater than the size of a chunk")
  ∧ ¬ (1 < 1 ∨ 100 < 1 ∨ (50 ≤ 100 ∧ 1 < 1))
  ∧ 1 ≤ 50 ∧ 1 ≤ 100
  ∧ splitSizeIntoChunkAlignedParts 50 1 100
    ≠ Ok [ {| start := 0; end_ := 50 |} ].
Proof. repeat split; try lia; try done. Qed.

(** ** SkylinkCodec: the length of what [decodeSkylinkBase64] returns *)

Lemma mapChars_length f (s : string) :
  String.length (mapChars f s) = String.length s.
Proof. induction s as [|c s IH]; simpl; [done | by rewrite IH]. Qed.

Lemma mapChars_app f (s t : string) :
  mapChars f (s +:+ t) = mapChars f s +:+ mapChars f t.
Proof. induction s as [|c s IH]; simpl; [done | by rewrite IH]. Qed.

Lemma string_app_length (s t : string) :
  String.length (s +:+ t) = (String.length s + String.length t)%nat.
Proof. induction s as [|c s IH]; simpl; [done | by rewrite IH]. Qed.

Lemma hasChar_replaceAll (e a b : ascii) (s : string) :
  Ascii.eqb a e = false → Ascii.eqb b e = false →
  hasChar e (replaceAll a b s) = hasChar e s.
Proof.
  intros Ha Hb. unfold replaceAll.
  induction s as [|c s IH]; simpl; [done|]. rewrite IH. f_equal.
  destruct (Ascii.eqb_spec c a) as [->|Hca]; [|done].
  by rewrite Ha, Hb.
Qed.

Lemma indexOfFrom_app (c : ascii) (s t : string) (i : Z) :
  hasChar c s = false →
  indexOfFrom c (s +:+ t) i = indexOfFrom c t (i + Z.of_nat (String.length s)).
Proof.
  revert i. induction s as [|d s IH]; intros i; simpl.
  - intros _. f_equal. lia.
  - destruct (Ascii.eqb d c); simpl; [done|].
    intros Hs. rewrite IH by done. f_equal. lia.
Qed.

Lemma decodeQuad_length b64 st i :
  length (snd (Base64Js.decodeQuad b64 st i)) = length (snd st).
Proof.
  destruct st as [curByte arr]. unfold Base64Js.decodeQuad. simpl.
  by rewrite !length_insert.
Qed.

Lemma foldl_decodeQuad_length b64 (idxs : list Z) st :
  length (snd (foldl (Base64Js.decodeQuad b64) st idxs)) = length (snd st).
Proof.
  revert st. induction idxs as [|i idxs IH]; intros st; simpl; [done|].
  rewrite IH. apply decodeQuad_length.
Qed.

(** The array [toByteArray] returns has the length it was created with. *)
Lemma toByteArray_length (b64 : string) (bytes : list Z) :
  Base64Js.toByteArray b64 = Ok bytes →
  ∃ validLen placeHoldersLen,
    Base64Js.getLens b64 = Ok (validLen, placeHoldersLen)
    ∧ Z.of_nat (length bytes) = Base64Js._byteLength validLen placeHoldersLen.
Proof.
  unfold Base64Js.toByteArray.
  destruct (Base64Js.getLens b64) as [[validLen placeHoldersLen]|e]; [|done].
  destruct (Z.ltb_spec (Base64Js._byteLength validLen placeHoldersLen) 0)
    as [Hneg|Hn]; [done|].
  pose proof (foldl_decodeQuad_length b64
    ((λ k, 4 * k) <$> seqZ 0 (Base64Js.numQuads
       (if 0 <? placeHoldersLen then validLen - 4 else validLen)))
    (0%nat, replicate (Z.to_nat
       (Base64Js._byteLength validLen placeHoldersLen)) 0)) as Hlen.
  destruct (foldl _ _ _) as [curByte arr]. simpl in Hlen.
  rewrite length_replicate in Hlen.
  intros Hres. exists validLen, placeHoldersLen. split; [done|].
  destruct (placeHoldersLen =? 2); destruct (placeHoldersLen =? 1);
    injection Hres as <-; rewrite ?length_insert; lia.
Qed.

Lemma toByteArray_total (b64 : string) (validLen placeHoldersLen : Z) :
  Base64Js.getLens b64 = Ok (validLen, placeHoldersLen) →
  0 ≤ Base64Js._byteLength validLen placeHoldersLen →
  isOk (Base64Js.toByteArray b64) = true.
Proof.
  intros Hlens Hn. unfold Base64Js.toByteArray. rewrite Hlens.
  destruct (Z.ltb_spec (Base64Js._byteLength validLen placeHoldersLen) 0);
    [lia|].
  destruct (foldl _ _ _) as [curByte arr].
  by destruct (placeHoldersLen =? 2); destruct (placeHoldersLen =? 1).
Qed.

(** The padded, translated form of a 46-character skylink without [=]:
    48 characters, the first [=] at index 46. *)
Lemma getLens_padded (skylink : string) :
  String.length skylink = 46%nat → hasChar "=" skylink = false →
  Base64Js.getLens
    (replaceAll "_" "/" (replaceAll "-" "+" (skylink +:+ "==")))
  = Ok (46, 2).
Proof.
  intros Hlen Hno. unfold Base64Js.getLens, replaceAll.
  rewrite !mapChars_length, string_app_length, Hlen.
  change (0 <? Z.of_nat (46 + String.length "==") `mod` 4) with false.
  cbv iota. rewrite !mapChars_app. unfold indexOf.
  rewrite indexOfFrom_app.
  - rewrite !mapChars_length, Hlen. reflexivity.
  - fold (replaceAll "-" "+" skylink).
    fold (replaceAll "_" "/" (replaceAll "-" "+" skylink)).
    rewrite !hasChar_replaceAll by done. done.
Qed.

(** C6, as the code has it.  [decodeSkylinkBase64] fails for every input
    whose length is not exactly 46 characters, so it succeeds only on
    46-character inputs; on every 46-character input without the character
    [=] it succeeds and returns exactly 34 bytes.  The code does not check
    the length of what the decoder returns. *)
Theorem decode_length_contract (skylink : string) :
  (String.length skylink ≠ 46%nat →
   decodeSkylinkBase64 skylink
   = Err (MalformedSkylink "Skylink is not 46 bytes long."))
  ∧ (∀ bytes, decodeSkylinkBase64 skylink = Ok bytes →
              String.length skylink = 46%nat)
  ∧ (String.length skylink = 46%nat → hasChar "=" skylink = false →
     ∃ bytes, decodeSkylinkBase64 skylink = Ok bytes
              ∧ length bytes = RAW_SKYLINK_SIZE).
Proof.
  unfold decodeSkylinkBase64, BASE64_ENCODED_SKYLINK_SIZE.
  split; [|split].
  - intros Hlen. by rewrite decide_True.
  - intros bytes. case_decide; [done|]. intros _. lia.
  - intros Hlen Hno. rewrite decide_False by lia.
    pose proof (getLens_padded skylink Hlen Hno) as Hlens.
    pose proof (toByteArray_total _ _ _ Hlens) as Hok.
    destruct (Base64Js.toByteArray _) as [bytes|e] eqn:Hdec.
    + exists bytes. split; [done|].
      apply toByteArray_length in Hdec as (v & p & Hl & Hb).
      rewrite Hlens in Hl. injection Hl as <- <-.
      change (Base64Js._byteLength 46 2) with 34 in Hb.
      unfold RAW_SKYLINK_SIZE. lia.
    + discriminate Hok. done.
Qed.

Lemma decode_length_contract_witness :
  ∃ bytes, decodeSkylinkBase64 sampleSkylink = Ok bytes
           ∧ length bytes = RAW_SKYLINK_SIZE.
Proof.
  apply (proj2 (proj2 (decode_length_contract sampleSkylink))); reflexivity.
Defined.

(** C6, the claim as stated fails: a 46-character input that ends in [=]
    is decoded without error to 33 bytes. *)
Lemma decode_padded_input_33_bytes :
  String.length padded45 = 46%nat
  ∧ decodeSkylinkBase64 padded45 = Ok (replicate 33 0)
  ∧ length (replicate 33 0 : list Z) ≠ RAW_SKYLINK_SIZE.
Proof. split; [reflexivity | split; [vm_compute; reflexivity | done]]. Qed.

(** ** Option validation *)

Lemma Qltb_lt (x y : Q) : Qltb x y = true ↔ (x < y)%Q.
Proof.
  unfold Qltb. rewrite negb_true_iff. split.
  - intros Hle. apply Qnot_le_lt. intros Hyx.
    apply Qle_bool_iff in Hyx. congruence.
  - intros Hlt. destruct (Qle_bool y x) eqn:Hle; [|done].
    apply Qle_bool_iff in Hle. by apply Qlt_not_le in Hlt.
Qed.

Lemma validateLargeOptions_error (opts : uploadOptions) (e : error) :
  validateLargeOptions opts = Err e →
  ∃ name expected, e = InvalidArgument name expected.
Proof.
  unfold validateLargeOptions, validateInteger, throwValidationError.
  destruct (staggerPercent opts) as [p|];
    repeat (match goal with
            | |- context [if ?b then _ else _] => destruct b
            end; simpl);
    intros [= <-]; eauto.
Qed.

Lemma validateLargeOptions_invalid (opts : uploadOptions) :
  invalidLargeOptions opts →
  ∃ name expected,
    validateLargeOptions opts = Err (InvalidArgument name expected).
Proof.
  intros Hinv.
  destruct (validateLargeOptions opts) as [[]|e] eqn:Hv.
  - exfalso. revert Hv.
    unfold validateLargeOptions, validateInteger, throwValidationError.
    destruct Hinv as [H|[H|[H|[H|(p & Hp & H)]]]].
    + apply Qltb_lt in H. rewrite H.
      destruct (staggerPercent opts) as [p|]; [destruct (_ || _)|]; done.
    + rewrite H.
      destruct (staggerPercent opts) as [p|]; [destruct (_ || _)|];
        destruct (Qltb (chunkSizeMultiplier opts) 1); done.
    + apply Qltb_lt in H. rewrite H.
      destruct (staggerPercent opts) as [p|]; [destruct (_ || _)|];
        destruct (Qltb (chunkSizeMultiplier opts) 1);
        destruct (isInteger (chunkSizeMultiplier opts)); done.
    + rewrite H.
      destruct (staggerPercent opts) as [p|]; [destruct (_ || _)|];
        destruct (Qltb (chunkSizeMultiplier opts) 1);
        destruct (isInteger (chunkSizeMultiplier opts));
        destruct (Qltb (numParallelUploads opts) 1); done.
    + rewrite Hp.
      assert (Qltb p 0 || Qltb 100 p = true) as ->; [|done].
      apply orb_true_iff. destruct H as [H|H]; apply Qltb_lt in H; auto.
  - apply validateLargeOptions_error in Hv as (name & expected & ->). eauto.
Qed.

(** C8. In the large-file path the options are checked before anything
    else: when [chunkSizeMultiplier] is below 1 or not an integer, or
    [numParallelUploads] is below 1 or not an integer, or [staggerPercent]
    is present and outside [[0, 100]], [uploadLargeFile] fails with a
    validation error and the trace of requests is the one it started with:
    no upload session is started and no request is issued. *)
Theorem large_upload_validates_before_io
    (TUS_CHUNK_SIZE : Z) (makeUrl : string → string → string)
    (w : world) (filename : string) (filesize : Z) (opts : uploadOptions)
    (t : list request) :
  invalidLargeOptions opts →
  ∃ name expected,
    uploadLargeFile TUS_CHUNK_SIZE makeUrl w filename filesize opts t
    = (Err (InvalidArgument name expected), t).
Proof.
  intros Hinv.
  destruct (validateLargeOptions_invalid opts Hinv) as (name & expected & Hv).
  exists name, expected. unfold uploadLargeFile.
  unfold mbind, io_bind, liftResult. rewrite Hv. done.
Qed.

Lemma large_upload_validates_before_io_witness :
  ∃ name expected,
    uploadLargeFile sampleChunkSize sampleMakeUrl
      (sampleWorld (Some sampleUploadUrl) ∅) "big.bin" (3 * sampleChunkSize)
      (sampleOptions 0 2) []
    = (Err (InvalidArgument name expected), []).
Proof.
  apply large_upload_validates_before_io.
  left. reflexivity.
Defined.

(** ** The final probe *)




(** ** Which path an upload takes *)

Lemma uploadSmallFile_trace (makeUrl : string → string → string)
    (w : world) (filename : string) (opts : uploadOptions) (t : list request) :
  snd (uploadSmallFile makeUrl w filename opts t)
  = t ++ [Post (makeUrl (portalUrl opts) (endpointPath opts))
               (portalFileFieldname opts) filename (dryRun opts)].
Proof.
  unfold uploadSmallFile, mbind, io_bind, mret, io_ret, issue.
  by destruct (postSkylink w _).
Qed.

Lemma uploadLargeFile_no_post
    (TUS_CHUNK_SIZE : Z) (makeUrl : string → string → string)
    (w : world) (filename : string) (filesize : Z) (opts : uploadOptions)
    (t : list request) :
  existsb isPost
    (snd (uploadLargeFile TUS_CHUNK_SIZE makeUrl w filename filesize opts t))
  = existsb isPost t.
Proof.
  unfold uploadLargeFile, onSuccess, mbind, io_bind, mret, io_ret,
    liftResult, issue.
  destruct (validateLargeOptions opts) as [[]|e]; [|done].
  destruct (tusRun w _) as [msg|[url|]]; simpl;
    [|destruct (headHeaders w url); simpl|];
    rewrite ?existsb_app; simpl; by rewrite ?orb_false_r.
Qed.

(** C9. The upload path is chosen by one comparison.  [uploadData] and
    [uploadFile] run the small-file path when [sizeInBytes] is below
    [largeFileSize] and the large-file path otherwise; a POST request is
    issued exactly when [sizeInBytes < largeFileSize].  In particular
    [sizeInBytes = largeFileSize] takes the large-file path and
    [sizeInBytes = largeFileSize - 1] the small-file path. *)
Theorem upload_strategy_threshold
    (TUS_CHUNK_SIZE : Z) (makeUrl : string → string → string)
    (basename : string → string)
    (w : world) (data filename path : string) (opts : uploadOptions) :
  let dataSize := Z.of_nat (String.length data) in
  let pathSize := fileSize w path in
  let pathName := if decide (customFilename opts = EmptyString)
                  then basename path else customFilename opts in
  (dataSize < largeFileSize opts →
   uploadData TUS_CHUNK_SIZE makeUrl w data filename opts
   = uploadSmallFile makeUrl w filename opts)
  ∧ (largeFileSize opts ≤ dataSize →
     uploadData TUS_CHUNK_SIZE makeUrl w data filename opts
     = uploadLargeFile TUS_CHUNK_SIZE makeUrl w filename dataSize opts)
  ∧ (existsb isPost
       (snd (uploadData TUS_CHUNK_SIZE makeUrl w data filename opts [])) = true
     ↔ dataSize < largeFileSize opts)
  ∧ (pathSize < largeFileSize opts →
     uploadFile TUS_CHUNK_SIZE makeUrl basename w path opts
     = uploadSmallFile makeUrl w pathName opts)
  ∧ (largeFileSize opts ≤ pathSize →
     uploadFile TUS_CHUNK_SIZE makeUrl basename w path opts
     = uploadLargeFile TUS_CHUNK_SIZE makeUrl w pathName pathSize opts)
  ∧ (existsb isPost
       (snd (uploadFile TUS_CHUNK_SIZE makeUrl basename w path opts [])) = true
     ↔ pathSize < largeFileSize opts)
  ∧ (pathSize = largeFileSize opts →
     uploadFile TUS_CHUNK_SIZE makeUrl basename w path opts
     = uploadLargeFile TUS_CHUNK_SIZE makeUrl w pathName pathSize opts)
  ∧ (pathSize = largeFileSize opts - 1 →
     uploadFile TUS_CHUNK_SIZE makeUrl basename w path opts
     = uploadSmallFile makeUrl w pathName opts).
Proof.
  intros dataSize pathSize pathName.
  unfold uploadData, uploadFile. fold dataSize pathSize pathName.
  destruct (Z.ltb_spec dataSize (largeFileSize opts)) as [Hd|Hd];
    destruct (Z.ltb_spec pathSize (largeFileSize opts)) as [Hp|Hp];
    rewrite ?uploadSmallFile_trace, ?uploadLargeFile_no_post, ?existsb_app;
    simpl; repeat split; intros; try done; try lia.
Qed.

Lemma upload_strategy_threshold_witness :
  uploadFile sampleChunkSize sampleMakeUrl sampleBasename
    (sampleWorld (Some sampleUploadUrl) ∅) "big.bin" (sampleOptions 1 2)
  = uploadLargeFile sampleChunkSize sampleMakeUrl
      (sampleWorld (Some sampleUploadUrl) ∅) "big.bin" (3 * sampleChunkSize)
      (sampleOptions 1 2).
Proof.
  destruct (upload_strategy_threshold sampleChunkSize sampleMakeUrl
              sampleBasename (sampleWorld (Some sampleUploadUrl) ∅)
              EmptyString EmptyString "big.bin" (sampleOptions 1 2))
    as (_ & _ & _ & _ & Hlarge & _).
  apply Hlarge. vm_compute. discriminate.
Defined.

(** ** The format of the returned identifier *)

Lemma dropPrefix_length (p s rest : string) :
  dropPrefix p s = Some rest →
  String.length s = (String.length p + String.length rest)%nat.
Proof.
  revert s. induction p as [|a p IH]; intros s; simpl.
  - by intros [= ->].
  - destruct s as [|b s]; [done|]. destruct (Ascii.eqb a b); [|done].
    intros Hrest. simpl. by rewrite (IH s Hrest).
Qed.









(** ** Clamping the number of parallel uploads *)

Lemma ceilDiv_mul (k b : Z) : 0 < b → ceilDiv (k * b) b = k.
Proof.
  intros Hb. unfold ceilDiv.
  rewrite <- Z.mul_opp_l, Z.div_mul by lia. lia.
Qed.

(** C5, the code at a failing input.  With a chunk size multiplier of 2,
    three parallel uploads requested and a file of three base chunks, the
    parallelism stays 3 after clamping (there are three base chunks), the
    partition is computed with chunks of twice the base size, and its
    third part is empty. *)
Theorem clamp_leaves_empty_part
    (TUS_CHUNK_SIZE : Z) (makeUrl : string → string → string)
    (filename : string) (opts : uploadOptions) :
  1 ≤ TUS_CHUNK_SIZE →
  chunkSizeMultiplier opts = 2%Q →
  numParallelUploads opts = 3%Q →
  partitionPlan
    (buildTusOptions TUS_CHUNK_SIZE makeUrl filename (3 * TUS_CHUNK_SIZE) opts)
    (3 * TUS_CHUNK_SIZE)
  = Some (Ok [ {| start := 0; end_ := 2 * TUS_CHUNK_SIZE |};
               {| start := 2 * TUS_CHUNK_SIZE; end_ := 3 * TUS_CHUNK_SIZE |};
               {| start := 3 * TUS_CHUNK_SIZE; end_ := 3 * TUS_CHUNK_SIZE |} ]).
Proof.
  intros HT Hm Hn. unfold partitionPlan, buildTusOptions.
  rewrite Hm, Hn, ceilDiv_mul by lia.
  change (Qfloor 3) with 3. change (Qfloor 2) with 2.
  change (3 <? 3) with false. cbv iota.
  change (1 <? 3) with true. cbv beta iota zeta.
  cbn [tus_splitSizeIntoParts tus_parallelUploads fmap option_fmap option_map].
  f_equal. rewrite split_ok by lia. f_equal.
  assert (Hdiv : (3 * TUS_CHUNK_SIZE) `div` (TUS_CHUNK_SIZE * 2) = 1).
  { symmetry. apply (Z.div_unique _ _ 1 TUS_CHUNK_SIZE); lia. }
  assert (Hmod : (3 * TUS_CHUNK_SIZE) `mod` (TUS_CHUNK_SIZE * 2)
                 = TUS_CHUNK_SIZE).
  { symmetry. apply (Z.mod_unique _ _ 1 TUS_CHUNK_SIZE); lia. }
  unfold partSizesOf. rewrite Hdiv, Hmod.
  destruct (Z.ltb_spec 0 TUS_CHUNK_SIZE); [|lia].
  change (assignChunks 3 (TUS_CHUNK_SIZE * 2) 1 (replicate (Z.to_nat 3) 0))
    with [0 + TUS_CHUNK_SIZE * 2; 0; 0].
  change (addAt TUS_CHUNK_SIZE (1 `min` (3 - 1))
            [0 + TUS_CHUNK_SIZE * 2; 0; 0])
    with [0 + TUS_CHUNK_SIZE * 2; 0 + TUS_CHUNK_SIZE; 0].
  cbn [sizesToParts]. repeat f_equal; lia.
Qed.

Lemma clamp_leaves_empty_part_witness :
  partitionPlan
    (buildTusOptions sampleChunkSize sampleMakeUrl "big.bin"
       (3 * sampleChunkSize) (sampleOptions 2 3))
    (3 * sampleChunkSize)
  = Some (Ok [ {| start := 0; end_ := 2 * sampleChunkSize |};
               {| start := 2 * sampleChunkSize;
                  end_ := 3 * sampleChunkSize |};
               {| start := 3 * sampleChunkSize;
                  end_ := 3 * sampleChunkSize |} ]).
Proof.
  apply (clamp_leaves_empty_part sampleChunkSize sampleMakeUrl "big.bin"
           (sampleOptions 2 3)); [unfold sampleChunkSize; lia | done | done].
Defined.

(** The same slip lets a call through that the partitioner rejects: a file
    of two base chunks with multiplier 2 and two parallel uploads keeps a
    parallelism of 2, and the partitioner is then called with
    [totalSize = chunkSize]. *)
Lemma clamp_reaches_unexpected_flow :
  validateLargeOptions (sampleOptions 2 2) = Ok tt
  ∧ partitionPlan
      (buildTusOptions sampleChunkSize sampleMakeUrl "big.bin"
         (2 * sampleChunkSize) (sampleOptions 2 2))
      (2 * sampleChunkSize)
    = Some (Err (InvalidArgument "totalSize"
                   "greater than the size of a chunk")).
Proof. split; reflexivity. Qed.

(** With a multiplier of 1 the clamp and the partition use the same chunk
    size, and the clamp does what its comment says. *)

Lemma sumZ_nonneg (l : list Z) : Forall (λ x, 0 ≤ x) l → 0 ≤ sumZ l.
Proof.
  induction 1 as [|x l Hx _ IH]; [done|]. rewrite sumZ_cons. lia.
Qed.

Lemma sumZ_ge_entry (l : list Z) (i : nat) (x : Z) :
  Forall (λ x, 0 ≤ x) l → l !! i = Some x → x ≤ sumZ l.
Proof.
  intros Hall. revert i. induction Hall as [|y l Hy Hl IH]; intros i; [done|].
  rewrite sumZ_cons. destruct i as [|i]; simpl.
  - intros [= ->]. apply sumZ_nonneg in Hl. lia.
  - intros Hi. apply IH in Hi. lia.
Qed.

Lemma ceilDiv_floor (a b : Z) :
  0 < b →
  ceilDiv a b = a `div` b + (if decide (a `mod` b = 0) then 0 else 1).
Proof.
  intros Hb. unfold ceilDiv.
  pose proof (Z.div_mod a b ltac:(lia)) as Hab.
  pose proof (Z.mod_pos_bound a b Hb) as Hr.
  case_decide as Hz.
  - rewrite <- (Z.div_unique (- a) b (- (a `div` b)) 0); lia.
  - rewrite <- (Z.div_unique (- a) b (- (a `div` b) - 1) (b - a `mod` b)); lia.
Qed.

Lemma spec_partSize_pos (totalSize partCount chunkSize j : Z) :
  1 ≤ partCount → 1 ≤ chunkSize → chunkSize < totalSize →
  partCount ≤ ceilDiv totalSize chunkSize →
  0 ≤ j < partCount →
  0 < spec_partSize totalSize partCount chunkSize j.
Proof.
  intros Hp Hc Ht Hclamp Hj. unfold spec_partSize.
  rewrite ceilDiv_floor in Hclamp by lia.
  assert (1 ≤ totalSize `div` chunkSize) as Hq by (apply numFullChunks_pos; lia).
  pose proof (Z.mod_pos_bound totalSize chunkSize ltac:(lia)) as Hr.
  set (g := λ i : Z, if decide (i `mod` partCount = j) then chunkSize else 0).
  assert (Hall : Forall (λ x, 0 ≤ x) (g <$> seqZ 0 (totalSize `div` chunkSize))).
  { apply Forall_fmap, Forall_forall. intros i _. unfold g. simpl.
    destruct (decide (i `mod` partCount = j)); lia. }
  destruct (decide (j < totalSize `div` chunkSize)) as [Hlt|Hge].
  - assert (Hentry : (g <$> seqZ 0 (totalSize `div` chunkSize)) !! Z.to_nat j
                     = Some chunkSize).
    { rewrite list_lookup_fmap, lookup_seqZ_lt by lia. simpl.
      unfold g. rewrite decide_True; [done|].
      rewrite Z2Nat.id, Z.add_0_l by lia. apply Z.mod_small. lia. }
    apply (sumZ_ge_entry _ _ _ Hall) in Hentry.
    destruct (decide (0 < totalSize `mod` chunkSize ∧ _)); lia.
  - apply sumZ_nonneg in Hall.
    destruct (decide (totalSize `mod` chunkSize = 0)) as [Hz|Hz]; [lia|].
    rewrite decide_True by lia. lia.
Qed.

(** When the multiplier is 1 and the clamped parallelism exceeds 1, the
    partition of the upload is computed without error and none of its
    parts is empty. *)
Theorem clamp_prevents_empty_parts_multiplier_one
    (TUS_CHUNK_SIZE : Z) (makeUrl : string → string → string)
    (filename : string) (filesize : Z) (opts : uploadOptions)
    (plan : result (list part)) :
  1 ≤ TUS_CHUNK_SIZE →
  Qfloor (chunkSizeMultiplier opts) = 1 →
  partitionPlan
    (buildTusOptions TUS_CHUNK_SIZE makeUrl filename filesize opts) filesize
  = Some plan →
  ∃ parts, plan = Ok parts ∧ ∀ i p, parts !! i = Some p → start p < end_ p.
Proof.
  intros HT Hm. unfold partitionPlan, buildTusOptions. rewrite Hm, Z.mul_1_r.
  set (np := Qfloor (numParallelUploads opts)).
  set (nc := ceilDiv filesize TUS_CHUNK_SIZE).
  set (par := if nc <? np then nc else np).
  assert (Hpar : par ≤ nc) by (unfold par; destruct (Z.ltb_spec nc np); lia).
  destruct (Z.ltb_spec 1 par) as [Hgt|Hle]; [|done].
  cbn [tus_splitSizeIntoParts tus_parallelUploads fmap option_fmap option_map].
  intros [= <-].
  assert (Hbig : TUS_CHUNK_SIZE < filesize).
  { unfold nc in Hpar. rewrite ceilDiv_floor in Hpar by lia.
    destruct (decide (filesize ≤ TUS_CHUNK_SIZE)) as [Hsmall|]; [|lia].
    exfalso.
    assert (filesize `div` TUS_CHUNK_SIZE ≤ 1) as Hq.
    { apply Z.div_le_upper_bound; lia. }
    destruct (decide (filesize `div` TUS_CHUNK_SIZE = 1)) as [Hone|Hnot].
    - pose proof (Z.div_mod filesize TUS_CHUNK_SIZE ltac:(lia)) as Hdm.
      pose proof (Z.mod_pos_bound filesize TUS_CHUNK_SIZE ltac:(lia)) as Hr.
      rewrite Hone in Hdm.
      assert (filesize `mod` TUS_CHUNK_SIZE = 0) as Hz by lia.
      rewrite decide_True in Hpar by done. lia.
    - case_decide; lia. }
  eexists. split; [apply split_ok; lia|].
  intros i p Hp. apply sizesToParts_lookup in Hp as (_ & _ & Hp).
  assert (Hi : Z.of_nat i < par).
  { apply lookup_lt_Some in Hp.
    assert (Z.of_nat (length (partSizesOf filesize par TUS_CHUNK_SIZE)) = par)
      by (apply partSizesOf_length; lia).
    lia. }
  rewrite partSizesOf_lookup in Hp by lia. injection Hp as Hp.
  pose proof (spec_partSize_pos filesize par TUS_CHUNK_SIZE (Z.of_nat i)
                ltac:(lia) ltac:(lia) ltac:(lia) Hpar ltac:(lia)) as Hpos.
  unfold part_length in Hp. lia.
Qed.

Lemma clamp_prevents_empty_parts_multiplier_one_witness :
  ∃ parts,
    Ok [ {| start := 0; end_ := sampleChunkSize |};
         {| start := sampleChunkSize; end_ := 2 * sampleChunkSize |};
         {| start := 2 * sampleChunkSize; end_ := 3 * sampleChunkSize |} ]
    = Ok parts
    ∧ ∀ i p, parts !! i = Some p → start p < end_ p.
Proof.
  apply (clamp_prevents_empty_parts_multiplier_one sampleChunkSize
           sampleMakeUrl "big.bin" (3 * sampleChunkSize) (sampleOptions 1 3));
    [unfold sampleChunkSize; lia | reflexivity | reflexivity].
Defined.

(** * Further properties of the code *)

(** ** How the whole chunks are dealt *)

Lemma chunksOfPart_succ (n partCount j : Z) :
  1 ≤ partCount → 0 ≤ n → 0 ≤ j < partCount →
  chunksOfPart (n + 1) partCount j
  = chunksOfPart n partCount j
    + (if decide (n `mod` partCount = j) then 1 else 0).
Proof.
  intros Hp Hn Hj. unfold chunksOfPart.
  pose proof (Z.div_mod n partCount ltac:(lia)) as Hdm.
  pose proof (Z.mod_pos_bound n partCount ltac:(lia)) as Hr.
  destruct (decide (n `mod` partCount + 1 < partCount)) as [Hlt|Hwrap].
  - rewrite <- (Z.div_unique (n + 1) partCount (n `div` partCount)
                  (n `mod` partCount + 1)) by lia.
    rewrite <- (Z.mod_unique (n + 1) partCount (n `div` partCount)
                  (n `mod` partCount + 1)) by lia.
    repeat case_decide; lia.
  - rewrite <- (Z.div_unique (n + 1) partCount (n `div` partCount + 1) 0)
      by lia.
    rewrite <- (Z.mod_unique (n + 1) partCount (n `div` partCount + 1) 0)
      by lia.
    repeat case_decide; lia.
Qed.

Lemma round_robin_count (partCount chunkSize j : Z) (n : nat) :
  1 ≤ partCount → 0 ≤ j < partCount →
  sumZ ((λ i, if decide (i `mod` partCount = j) then chunkSize else 0)
          <$> seqZ 0 (Z.of_nat n))
  = chunkSize * chunksOfPart (Z.of_nat n) partCount j.
Proof.
  intros Hp Hj. induction n as [|n IH].
  - simpl. unfold chunksOfPart.
    rewrite Z.div_0_l, Z.mod_0_l by lia. case_decide; lia.
  - rewrite seqZ_S, fmap_app, sumZ_app, IH.
    rewrite Nat2Z.inj_succ, <- Z.add_1_r, chunksOfPart_succ by lia.
    rewrite Z.add_0_l. cbn [fmap list_fmap]. rewrite sumZ_cons.
    change (sumZ []) with 0. case_decide; lia.
Qed.

Lemma spec_partSize_closed (totalSize partCount chunkSize j : Z) :
  1 ≤ partCount → 1 ≤ chunkSize → chunkSize < totalSize →
  0 ≤ j < partCount →
  spec_partSize totalSize partCount chunkSize j
  = chunkSize * chunksOfPart (totalSize `div` chunkSize) partCount j
    + (if decide (0 < totalSize `mod` chunkSize
                  ∧ j = Z.min (totalSize `div` chunkSize) (partCount - 1))
       then totalSize `mod` chunkSize else 0).
Proof.
  intros Hp Hc Ht Hj. unfold spec_partSize.
  assert (1 ≤ totalSize `div` chunkSize) by (apply numFullChunks_pos; lia).
  rewrite <- (Z2Nat.id (totalSize `div` chunkSize)) at 1 by lia.
  rewrite round_robin_count by lia. rewrite Z2Nat.id by lia. done.
Qed.

(** The length of every part in closed form: part [j] holds
    [floor(fullChunks / partCount)] whole chunks, one more when
    [j < fullChunks mod partCount], and the leftover when it is positive
    and [j = min(fullChunks, partCount - 1)]. *)
Theorem split_part_length_closed_form
    (totalSize partCount chunkSize : Z) (parts : list part)
    (j : nat) (p : part) :
  1 ≤ partCount → 1 ≤ chunkSize → chunkSize < totalSize →
  splitSizeIntoChunkAlignedParts totalSize partCount chunkSize = Ok parts →
  parts !! j = Some p →
  part_length p
  = chunkSize
    * chunksOfPart (totalSize `div` chunkSize) partCount (Z.of_nat j)
    + (if decide (0 < totalSize `mod` chunkSize
                  ∧ Z.of_nat j
                    = Z.min (totalSize `div` chunkSize) (partCount - 1))
       then totalSize `mod` chunkSize else 0).
Proof.
  intros Hp Hc Ht. rewrite split_ok by done. intros [= <-] Hj.
  apply sizesToParts_lookup in Hj as (_ & _ & Hj).
  assert (Hlt : Z.of_nat j < partCount).
  { apply lookup_lt_Some in Hj.
    assert (Z.of_nat (length (partSizesOf totalSize partCount chunkSize))
            = partCount) by (apply partSizesOf_length; lia).
    lia. }
  rewrite partSizesOf_lookup in Hj by done. injection Hj as Hj.
  rewrite <- Hj. apply spec_partSize_closed; lia.
Qed.

Lemma split_part_length_closed_form_witness :
  part_length {| start := 4; end_ := 7 |}
  = 2 * chunksOfPart (7 `div` 2) 3 (Z.of_nat 2)
    + (if decide (0 < 7 `mod` 2 ∧ Z.of_nat 2 = Z.min (7 `div` 2) (3 - 1))
       then 7 `mod` 2 else 0).
Proof.
  apply (split_part_length_closed_form 7 3 2
           [ {| start := 0; end_ := 2 |}; {| start := 2; end_ := 4 |};
             {| start := 4; end_ := 7 |} ]); [lia | lia | lia | | ];
    reflexivity.
Defined.

Lemma spec_partSize_bounds (totalSize partCount chunkSize j : Z) :
  1 ≤ partCount → 1 ≤ chunkSize → chunkSize < totalSize →
  0 ≤ j < partCount →
  chunkSize * ((totalSize `div` chunkSize) `div` partCount)
  ≤ spec_partSize totalSize partCount chunkSize j
  ≤ chunkSize * ((totalSize `div` chunkSize) `div` partCount) + chunkSize.
Proof.
  intros Hp Hc Ht Hj. rewrite spec_partSize_closed by lia.
  unfold chunksOfPart.
  assert (1 ≤ totalSize `div` chunkSize) as Hn
    by (apply numFullChunks_pos; lia).
  pose proof (Z.mod_pos_bound totalSize chunkSize ltac:(lia)) as Hl.
  pose proof (Z.mod_pos_bound (totalSize `div` chunkSize) partCount
                ltac:(lia)) as Hr.
  assert (totalSize `div` chunkSize < partCount →
          (totalSize `div` chunkSize) `mod` partCount
          = totalSize `div` chunkSize) as Hsmall
    by (intros; apply Z.mod_small; lia).
  set (q := (totalSize `div` chunkSize) `div` partCount) in *.
  destruct (decide (j < (totalSize `div` chunkSize) `mod` partCount));
    destruct (decide (0 < totalSize `mod` chunkSize
                      ∧ j = Z.min (totalSize `div` chunkSize)
                                  (partCount - 1)));
    nia.
Qed.

(** The parts are balanced: the lengths of any two parts of a partition
    differ by at most one chunk. *)
Theorem split_parts_balanced
    (totalSize partCount chunkSize : Z) (parts : list part)
    (i j : nat) (p q : part) :
  1 ≤ partCount → 1 ≤ chunkSize → chunkSize < totalSize →
  splitSizeIntoChunkAlignedParts totalSize partCount chunkSize = Ok parts →
  parts !! i = Some p → parts !! j = Some q →
  part_length p - part_length q ≤ chunkSize.
Proof.
  intros Hp Hc Ht. rewrite split_ok by done. intros [= <-] Hi Hj.
  assert (Hlen : Z.of_nat (length (partSizesOf totalSize partCount chunkSize))
                 = partCount) by (apply partSizesOf_length; lia).
  apply sizesToParts_lookup in Hi as (_ & _ & Hi).
  apply sizesToParts_lookup in Hj as (_ & _ & Hj).
  pose proof (lookup_lt_Some _ _ _ Hi) as Hilt.
  pose proof (lookup_lt_Some _ _ _ Hj) as Hjlt.
  rewrite partSizesOf_lookup in Hi, Hj by lia.
  injection Hi as Hi. injection Hj as Hj.
  pose proof (spec_partSize_bounds totalSize partCount chunkSize (Z.of_nat i)
                Hp Hc Ht ltac:(lia)) as Hbi.
  pose proof (spec_partSize_bounds totalSize partCount chunkSize (Z.of_nat j)
                Hp Hc Ht ltac:(lia)) as Hbj.
  lia.
Qed.

Lemma split_parts_balanced_witness :
  part_length {| start := 4; end_ := 7 |}
  - part_length {| start := 0; end_ := 2 |} ≤ 2.
Proof.
  apply (split_parts_balanced 7 3 2
           [ {| start := 0; end_ := 2 |}; {| start := 2; end_ := 4 |};
             {| start := 4; end_ := 7 |} ] 2 0); [lia | lia | lia | | | ];
    reflexivity.
Defined.

Lemma spec_partSize_zero_iff (totalSize partCount chunkSize j : Z) :
  1 ≤ partCount → 1 ≤ chunkSize → chunkSize < totalSize →
  0 ≤ j < partCount →
  spec_partSize totalSize partCount chunkSize j = 0
  ↔ ceilDiv totalSize chunkSize ≤ j.
Proof.
  intros Hp Hc Ht Hj.
  assert (1 ≤ totalSize `div` chunkSize) as Hn
    by (apply numFullChunks_pos; lia).
  pose proof (Z.mod_pos_bound totalSize chunkSize ltac:(lia)) as Hl.
  destruct (decide (ceilDiv totalSize chunkSize ≤ j)) as [Hge|Hlt].
  - split; [done|intros _].
    rewrite ceilDiv_floor in Hge by lia.
    assert (totalSize `div` chunkSize < partCount) as Hfew
      by (destruct (decide (totalSize `mod` chunkSize = 0)); lia).
    rewrite spec_partSize_closed by lia. unfold chunksOfPart.
    rewrite Z.div_small, Z.mod_small by lia.
    destruct (decide (j < totalSize `div` chunkSize));
      destruct (decide (0 < totalSize `mod` chunkSize ∧ _));
      destruct (decide (totalSize `mod` chunkSize = 0)); lia.
  - split; [|done]. intros Hzero.
    destruct (decide (partCount ≤ ceilDiv totalSize chunkSize)) as [Hle|Hmore].
    + pose proof (spec_partSize_pos totalSize partCount chunkSize j
                    Hp Hc Ht Hle Hj). lia.
    + rewrite spec_partSize_closed in Hzero by lia.
      rewrite ceilDiv_floor in Hlt, Hmore by lia.
      assert (totalSize `div` chunkSize < partCount) as Hfew
        by (destruct (decide (totalSize `mod` chunkSize = 0)); lia).
      unfold chunksOfPart in Hzero.
      rewrite Z.div_small, Z.mod_small in Hzero by lia.
      destruct (decide (j < totalSize `div` chunkSize));
        destruct (decide (0 < totalSize `mod` chunkSize ∧ _));
        destruct (decide (totalSize `mod` chunkSize = 0)); nia.
Qed.

(** Which parts of a partition are empty: part [i] is empty exactly when
    [i >= ceil(totalSize / chunkSize)].  So a partition has no empty part
    exactly when the number of parts does not exceed the number of chunks,
    [ceil(totalSize / chunkSize)], and with more parts than chunks the
    last part is empty. *)
Theorem split_no_empty_part_iff
    (totalSize partCount chunkSize : Z) (parts : list part) :
  1 ≤ partCount → 1 ≤ chunkSize → chunkSize < totalSize →
  splitSizeIntoChunkAlignedParts totalSize partCount chunkSize = Ok parts →
  (∀ i p, parts !! i = Some p →
          (start p = end_ p ↔ ceilDiv totalSize chunkSize ≤ Z.of_nat i))
  ∧ ((∀ i p, parts !! i = Some p → start p < end_ p)
     ↔ partCount ≤ ceilDiv totalSize chunkSize)
  ∧ (ceilDiv totalSize chunkSize < partCount →
     ∃ p, last parts = Some p ∧ start p = end_ p).
Proof.
  intros Hp Hc Ht. rewrite split_ok by done. intros [= <-].
  assert (Hlen : Z.of_nat (length (partSizesOf totalSize partCount chunkSize))
                 = partCount) by (apply partSizesOf_length; lia).
  assert (Hparts : ∀ i p,
    sizesToParts 0 (partSizesOf totalSize partCount chunkSize) !! i = Some p →
    Z.of_nat i < partCount
    ∧ (start p = end_ p ↔ ceilDiv totalSize chunkSize ≤ Z.of_nat i)
    ∧ start p ≤ end_ p).
  { intros i p Hi. apply sizesToParts_lookup in Hi as (_ & _ & Hi).
    pose proof (lookup_lt_Some _ _ _ Hi) as Hilt.
    rewrite partSizesOf_lookup in Hi by lia. injection Hi as Hi.
    pose proof (spec_partSize_zero_iff totalSize partCount chunkSize
                  (Z.of_nat i) Hp Hc Ht ltac:(lia)) as Hzero.
    pose proof (spec_partSize_bounds totalSize partCount chunkSize
                  (Z.of_nat i) Hp Hc Ht ltac:(lia)) as Hbounds.
    assert (0 ≤ (totalSize `div` chunkSize) `div` partCount)
      by (apply Z.div_pos; [apply Z.div_pos|]; lia).
    unfold part_length in Hi. rewrite Hi in Hzero, Hbounds.
    split; [lia|]. split; [|nia].
    rewrite <- Hzero. lia. }
  assert (Hlast : ∃ p,
    last (sizesToParts 0 (partSizesOf totalSize partCount chunkSize)) = Some p
    ∧ sizesToParts 0 (partSizesOf totalSize partCount chunkSize)
        !! Z.to_nat (partCount - 1) = Some p).
  { rewrite last_lookup, sizesToParts_length.
    replace (pred (length (partSizesOf totalSize partCount chunkSize)))
      with (Z.to_nat (partCount - 1)) by lia.
    destruct (lookup_lt_is_Some_2
                (sizesToParts 0 (partSizesOf totalSize partCount chunkSize))
                (Z.to_nat (partCount - 1))) as [p Hpl];
      [rewrite sizesToParts_length; lia | eauto]. }
  split; [|split].
  - intros i p Hi. by apply Hparts in Hi as (_ & Hi & _).
  - split.
    + intros Hnonempty.
      destruct Hlast as (p & _ & Hpl).
      pose proof (Hnonempty _ _ Hpl) as Hpos.
      apply Hparts in Hpl as (_ & Hpl & _).
      destruct (decide (partCount ≤ ceilDiv totalSize chunkSize)); [done|].
      assert (start p = end_ p) by (apply Hpl; lia). lia.
    + intros Hclamp i p Hi. apply Hparts in Hi as (Hilt & Hi & Hle).
      destruct (decide (start p = end_ p)) as [Heq|]; [|lia].
      apply Hi in Heq. lia.
  - intros Hmore. destruct Hlast as (p & Hl & Hpl).
    exists p. split; [done|].
    apply Hparts in Hpl as (_ & Hpl & _). apply Hpl. lia.
Qed.

Lemma split_no_empty_part_iff_witness :
  ∃ p, last [ {| start := 0; end_ := 4 |}; {| start := 4; end_ := 5 |};
              {| start := 5; end_ := 5 |} ] = Some p
       ∧ start p = end_ p.
Proof.
  apply (split_no_empty_part_iff 5 3 4); [lia | lia | lia | | ];
    reflexivity.
Defined.

(** ** Every offset belongs to one part *)

Lemma sumZ_take_mono (l : list Z) (m n : nat) :
  Forall (λ x, 0 ≤ x) l → (m ≤ n)%nat → sumZ (take m l) ≤ sumZ (take n l).
Proof.
  intros Hall. revert m n.
  induction Hall as [|x l Hx Hl IH]; intros m n Hmn.
  - by rewrite !take_nil.
  - destruct m as [|m].
    + change (sumZ (take 0 (x :: l))) with 0. apply sumZ_nonneg.
      apply Forall_take. by constructor.
    + destruct n as [|n]; [lia|]. cbn [take]. rewrite !sumZ_cons.
      specialize (IH m n ltac:(lia)). lia.
Qed.

Lemma sizesToParts_cover b (sizes : list Z) (x : Z) :
  Forall (λ s, 0 ≤ s) sizes → b ≤ x < b + sumZ sizes →
  ∃ i p, sizesToParts b sizes !! i = Some p ∧ inPart x p.
Proof.
  intros Hall. revert b. induction Hall as [|s sizes Hs Hl IH]; intros b Hx.
  - change (sumZ []) with 0 in Hx. lia.
  - rewrite sumZ_cons in Hx. destruct (decide (x < b + s)) as [Hin|Hout].
    + exists 0%nat, {| start := b; end_ := b + s |}.
      split; [done|]. unfold inPart. simpl. lia.
    + destruct (IH (b + s) ltac:(lia)) as (i & p & Hp & Hxp).
      exists (S i), p. split; done.
Qed.

Lemma sizesToParts_ordered b (sizes : list Z) (i j : nat) (p q : part) :
  Forall (λ s, 0 ≤ s) sizes → (i < j)%nat →
  sizesToParts b sizes !! i = Some p → sizesToParts b sizes !! j = Some q →
  end_ p ≤ start q.
Proof.
  intros Hall Hij Hp Hq.
  apply sizesToParts_lookup in Hp as (_ & -> & _).
  apply sizesToParts_lookup in Hq as (-> & _ & _).
  pose proof (sumZ_take_mono sizes (S i) j Hall ltac:(lia)). lia.
Qed.

(** The parts tile the upload: every byte offset below [totalSize] lies in
    the range of exactly one part. *)
Theorem split_covers_each_offset_once
    (totalSize partCount chunkSize : Z) (parts : list part) (x : Z) :
  1 ≤ partCount → 1 ≤ chunkSize → chunkSize < totalSize →
  splitSizeIntoChunkAlignedParts totalSize partCount chunkSize = Ok parts →
  0 ≤ x < totalSize →
  ∃ i p, parts !! i = Some p ∧ inPart x p
         ∧ ∀ j q, parts !! j = Some q → inPart x q → j = i.
Proof.
  intros Hp Hc Ht. rewrite split_ok by done. intros [= <-] Hx.
  assert (Hnn : Forall (λ s, 0 ≤ s) (partSizesOf totalSize partCount chunkSize))
    by (apply partSizesOf_nonneg; lia).
  assert (Hsum : sumZ (partSizesOf totalSize partCount chunkSize) = totalSize)
    by (apply partSizesOf_sum; lia).
  destruct (sizesToParts_cover 0 _ x Hnn ltac:(lia)) as (i & p & Hi & Hxp).
  exists i, p. repeat split; try done; try apply Hxp.
  intros j q Hj Hxq. unfold inPart in *.
  destruct (Nat.lt_trichotomy j i) as [Hlt|[Heq|Hgt]]; [|done|].
  - pose proof (sizesToParts_ordered 0 _ j i q p Hnn Hlt Hj Hi). lia.
  - pose proof (sizesToParts_ordered 0 _ i j p q Hnn Hgt Hi Hj). lia.
Qed.

Lemma split_covers_each_offset_once_witness :
  ∃ i p, [ {| start := 0; end_ := 100 |};
           {| start := 100; end_ := 150 |} ] !! i = Some p ∧ inPart 120 p
         ∧ ∀ j q, [ {| start := 0; end_ := 100 |};
                    {| start := 100; end_ := 150 |} ] !! j = Some q →
                  inPart 120 q → j = i.
Proof.
  apply (split_covers_each_offset_once 150 2 100); [lia | lia | lia | | lia].
  reflexivity.
Defined.

(** ** When the large-file path goes parallel *)

Lemma ceilDiv_le (a b k : Z) : 0 < b → ceilDiv a b ≤ k ↔ a ≤ k * b.
Proof.
  intros Hb. rewrite ceilDiv_floor by done.
  pose proof (Z.div_mod a b ltac:(lia)) as Hdm.
  pose proof (Z.mod_pos_bound a b Hb) as Hr.
  destruct (decide (a `mod` b = 0)); split; intros; nia.
Qed.

(** [uploadLargeFile] sets up a parallel upload exactly when at least two
    parallel uploads are requested and the file is larger than one base
    chunk.  Otherwise [splitSizeIntoParts] and [staggerPercent] are both
    [null], whatever [staggerPercent] the options carry; in a parallel
    upload the engine gets the options' [staggerPercent]. *)
Theorem parallel_upload_iff
    (TUS_CHUNK_SIZE : Z) (makeUrl : string → string → string)
    (filename : string) (filesize : Z) (opts : uploadOptions) :
  1 ≤ TUS_CHUNK_SIZE →
  (is_Some (tus_splitSizeIntoParts
              (buildTusOptions TUS_CHUNK_SIZE makeUrl filename filesize opts))
   ↔ 2 ≤ Qfloor (numParallelUploads opts) ∧ TUS_CHUNK_SIZE < filesize)
  ∧ (tus_splitSizeIntoParts
       (buildTusOptions TUS_CHUNK_SIZE makeUrl filename filesize opts) = None →
     tus_staggerPercent
       (buildTusOptions TUS_CHUNK_SIZE makeUrl filename filesize opts) = None)
  ∧ (is_Some (tus_splitSizeIntoParts
                (buildTusOptions TUS_CHUNK_SIZE makeUrl filename filesize
                   opts)) →
     tus_staggerPercent
       (buildTusOptions TUS_CHUNK_SIZE makeUrl filename filesize opts)
     = staggerPercent opts).
Proof.
  intros HT. unfold buildTusOptions.
  set (np := Qfloor (numParallelUploads opts)).
  set (nc := ceilDiv filesize TUS_CHUNK_SIZE).
  pose proof (ceilDiv_le filesize TUS_CHUNK_SIZE 1 ltac:(lia)) as Hnc.
  fold nc in Hnc.
  set (par := if nc <? np then nc else np).
  assert (Hpar : 1 < par ↔ 2 ≤ np ∧ TUS_CHUNK_SIZE < filesize).
  { unfold par. destruct (Z.ltb_spec nc np); lia. }
  destruct (Z.ltb_spec 1 par) as [Hgt|Hle];
    cbn [tus_splitSizeIntoParts tus_staggerPercent].
  - split; [|split].
    + split; [intros _; by apply Hpar | by eexists].
    + done.
    + done.
  - split; [|split].
    + split; [by intros [? [=]] | intros Hboth; apply Hpar in Hboth; lia].
    + done.
    + by intros [? [=]].
Qed.

Lemma parallel_upload_iff_witness :
  is_Some (tus_splitSizeIntoParts
             (buildTusOptions sampleChunkSize sampleMakeUrl "big.bin"
                (3 * sampleChunkSize) (sampleOptions 1 2)))
  ↔ 2 ≤ Qfloor (numParallelUploads (sampleOptions 1 2))
    ∧ sampleChunkSize < 3 * sampleChunkSize.
Proof.
  apply (parallel_upload_iff sampleChunkSize sampleMakeUrl "big.bin"
           (3 * sampleChunkSize) (sampleOptions 1 2)).
  unfold sampleChunkSize. lia.
Defined.

(** What the partition of a parallel upload is.  With a multiplier of at
    least 1, when [uploadLargeFile] sets up a parallel upload of a file no
    larger than one effective chunk, the partitioner rejects the call (the
    flow its comment calls unexpected); for a larger file it returns as
    many parts as the clamped parallelism, and their lengths sum to the
    file size. *)
Theorem partition_plan_outcome
    (TUS_CHUNK_SIZE : Z) (makeUrl : string → string → string)
    (filename : string) (filesize : Z) (opts : uploadOptions)
    (plan : result (list part)) :
  1 ≤ TUS_CHUNK_SIZE →
  1 ≤ Qfloor (chunkSizeMultiplier opts) →
  partitionPlan
    (buildTusOptions TUS_CHUNK_SIZE makeUrl filename filesize opts) filesize
  = Some plan →
  (filesize ≤ TUS_CHUNK_SIZE * Qfloor (chunkSizeMultiplier opts) →
   plan = Err (InvalidArgument "totalSize" "greater than the size of a chunk"))
  ∧ (TUS_CHUNK_SIZE * Qfloor (chunkSizeMultiplier opts) < filesize →
     ∃ parts,
       plan = Ok parts
       ∧ Z.of_nat (length parts)
         = tus_parallelUploads
             (buildTusOptions TUS_CHUNK_SIZE makeUrl filename filesize opts)
       ∧ sumZ (part_length <$> parts) = filesize).
Proof.
  intros HT Hm. unfold partitionPlan, buildTusOptions.
  set (m := Qfloor (chunkSizeMultiplier opts)) in *.
  set (par := if ceilDiv filesize TUS_CHUNK_SIZE
                 <? Qfloor (numParallelUploads opts)
              then ceilDiv filesize TUS_CHUNK_SIZE
              else Qfloor (numParallelUploads opts)).
  destruct (Z.ltb_spec 1 par) as [Hgt|Hle]; [|done].
  cbn [tus_splitSizeIntoParts tus_parallelUploads fmap option_fmap option_map].
  intros [= <-]. split.
  - intros Hsmall. unfold splitSizeIntoChunkAlignedParts.
    destruct (Z.ltb_spec par 1); [lia|].
    destruct (Z.ltb_spec (TUS_CHUNK_SIZE * m) 1); [nia|].
    destruct (Z.leb_spec filesize (TUS_CHUNK_SIZE * m)); [done | lia].
  - intros Hbig. assert (1 ≤ TUS_CHUNK_SIZE * m) by nia.
    eexists. split; [apply split_ok; lia|]. split.
    + rewrite sizesToParts_length. apply partSizesOf_length. lia.
    + rewrite sizesToParts_lengths. apply partSizesOf_sum; lia.
Qed.

Lemma partition_plan_outcome_witness :
  ∃ parts,
    Ok [ {| start := 0; end_ := sampleChunkSize |};
         {| start := sampleChunkSize; end_ := 2 * sampleChunkSize |};
         {| start := 2 * sampleChunkSize; end_ := 3 * sampleChunkSize |} ]
    = Ok parts
    ∧ Z.of_nat (length parts)
      = tus_parallelUploads
          (buildTusOptions sampleChunkSize sampleMakeUrl "big.bin"
             (3 * sampleChunkSize) (sampleOptions 1 3))
    ∧ sumZ (part_length <$> parts) = 3 * sampleChunkSize.
Proof.
  apply (partition_plan_outcome sampleChunkSize sampleMakeUrl "big.bin"
           (3 * sampleChunkSize) (sampleOptions 1 3));
    [unfold sampleChunkSize; lia | done | reflexivity | reflexivity].
Defined.

(** ** What the large-file path asks of the portal *)


(** ** Request headers *)

Lemma buildRequestHeaders_lookup (baseHeaders : gmap string string)
    (customUserAgent customCookie k : string) :
  buildRequestHeaders baseHeaders customUserAgent customCookie !! k
  = if decide (k = "Cookie" ∧ customCookie ≠ EmptyString)
    then Some customCookie
    else if decide (k = "User-Agent" ∧ customUserAgent ≠ EmptyString)
         then Some customUserAgent
         else baseHeaders !! k.
Proof.
  unfold buildRequestHeaders.
  destruct (decide (customUserAgent = EmptyString));
    destruct (decide (customCookie = EmptyString));
    rewrite ?lookup_insert; repeat case_decide; destruct_and?; simplify_eq; try done; intuition (simplify_eq; done).
Qed.

(** [buildRequestHeaders] can be applied again without effect, as
    [executeRequest] does to headers [uploadLargeFile] already built with
    it.  It leaves every header other than [User-Agent] and [Cookie] as it
    is, and a non-empty custom value replaces the base header of that
    name. *)
Theorem buildRequestHeaders_idempotent (baseHeaders : gmap string string)
    (customUserAgent customCookie : string) :
  buildRequestHeaders
    (buildRequestHeaders baseHeaders customUserAgent customCookie)
    customUserAgent customCookie
  = buildRequestHeaders baseHeaders customUserAgent customCookie
  ∧ (∀ k, k ≠ "User-Agent" → k ≠ "Cookie" →
          buildRequestHeaders baseHeaders customUserAgent customCookie !! k
          = baseHeaders !! k)
  ∧ (customUserAgent ≠ EmptyString →
     buildRequestHeaders baseHeaders customUserAgent customCookie
       !! "User-Agent" = Some customUserAgent)
  ∧ (customCookie ≠ EmptyString →
     buildRequestHeaders baseHeaders customUserAgent customCookie
       !! "Cookie" = Some customCookie).
Proof.
  repeat split.
  - apply map_eq. intros k. rewrite !buildRequestHeaders_lookup.
    repeat case_decide; destruct_and?; simplify_eq; try done; intuition (simplify_eq; done).
  - intros k Hua Hc. rewrite buildRequestHeaders_lookup.
    repeat case_decide; destruct_and?; simplify_eq; try done; intuition (simplify_eq; done).
  - intros Hua. rewrite buildRequestHeaders_lookup.
    repeat case_decide; destruct_and?; simplify_eq; try done; intuition (simplify_eq; done).
  - intros Hc. rewrite buildRequestHeaders_lookup.
    repeat case_decide; destruct_and?; simplify_eq; try done; intuition (simplify_eq; done).
Qed.

Lemma buildRequestHeaders_idempotent_witness :
  buildRequestHeaders {[ "Cookie" := "old" ]} "skynet-cli" "session=1"
    !! "Cookie" = Some "session=1".
Proof.
  apply (buildRequestHeaders_idempotent {[ "Cookie" := "old" ]}
           "skynet-cli" "session=1").
  done.
Defined.

(** The HEAD probe of the large-file path goes to the URL the transfer
    reported, whatever the portal URL and the endpoint are; it carries the
    header [Tus-Resumable: 1.0.0], and every other header is the one the
    transfer was configured with. *)
Theorem probe_request
    (makeUrl3 : string → string → string → string) (opts : uploadOptions)
    (customUserAgent customCookie APIKey uploadUrl : string) :
  uploadUrl ≠ EmptyString →
  ax_url (executeRequest makeUrl3
            (probeConfig opts customUserAgent customCookie APIKey uploadUrl))
  = uploadUrl
  ∧ ax_method (executeRequest makeUrl3
                 (probeConfig opts customUserAgent customCookie APIKey
                    uploadUrl))
    = "head"
  ∧ ax_headers (executeRequest makeUrl3
                  (probeConfig opts customUserAgent customCookie APIKey
                     uploadUrl))
    = <["Tus-Resumable" := "1.0.0"]>
        (buildRequestHeaders ∅ customUserAgent customCookie).
Proof.
  intros Hurl. unfold executeRequest, probeConfig. simpl.
  rewrite decide_False by done. repeat split.
  apply map_eq. intros k.
  rewrite buildRequestHeaders_lookup, !lookup_insert,
    !buildRequestHeaders_lookup.
  repeat case_decide; destruct_and?; simplify_eq; try done; intuition (simplify_eq; done).
Qed.

Lemma probe_request_witness :
  ax_url (executeRequest (λ a b c, a +:+ b +:+ c)
            (probeConfig (sampleOptions 1 2) "skynet-cli" EmptyString
               EmptyString sampleUploadUrl))
  = sampleUploadUrl.
Proof.
  apply (probe_request (λ a b c, a +:+ b +:+ c) (sampleOptions 1 2)
           "skynet-cli" EmptyString EmptyString sampleUploadUrl).
  done.
Defined.

(** ** [uploadJSONdata] *)

Lemma dropPrefix_sound (p s rest : string) :
  dropPrefix p s = Some rest → p +:+ rest = s.
Proof.
  revert s. induction p as [|a p IH]; intros s; simpl.
  - by intros [= ->].
  - destruct s as [|b s]; [done|].
    destruct (Ascii.eqb_spec a b) as [->|]; [|done].
    intros Hrest. change (String b (p +:+ rest) = String b s).
    f_equal. by apply IH.
Qed.

(** The two identifiers [uploadJSONdata] returns agree: [skylink] is the
    URI prefix followed by [shortskylink], so trimming the prefix from
    [skylink] gives [shortskylink], which is the portal's answer.  One POST
    is issued, also when the request fails. *)
Theorem json_upload_identifiers
    (makeUrl : string → string → string) (w : world) (dataKey : string)
    (opts : uploadOptions) (t : list request) :
  snd (uploadJSONdata makeUrl w dataKey opts t)
  = t ++ [Post (makeUrl (portalUrl opts) (endpointPath opts))
               (portalFileFieldname opts) dataKey (dryRun opts)]
  ∧ ∀ r, fst (uploadJSONdata makeUrl w dataKey opts t) = Ok r →
         postSkylink w (makeUrl (portalUrl opts) (endpointPath opts))
         = Ok (json_shortskylink r)
         ∧ json_skylink r = uriSkynetPrefix +:+ json_shortskylink r
         ∧ dropPrefix uriSkynetPrefix (json_skylink r)
           = Some (json_shortskylink r).
Proof.
  unfold uploadJSONdata, mbind, io_bind, mret, io_ret, issue.
  destruct (postSkylink w _) as [short|e]; simpl; split; try done.
  intros r [= <-]. simpl. repeat split.
Qed.

(** ** [uploadDirectory] *)

Lemma removeFirst_prefix (pat s rest : string) :
  dropPrefix pat s = Some rest → removeFirst pat s = rest.
Proof. intros Hdrop. destruct s; simpl; by rewrite Hdrop. Qed.

Lemma directoryEntry_relative (basepath file : string) :
  fst (directoryEntry basepath file) = file
  ∧ (startsWith basepath file = true →
     basepath +:+ snd (directoryEntry basepath file) = file)
  ∧ (startsWith basepath file = false →
     snd (directoryEntry basepath file) = file).
Proof.
  unfold directoryEntry, startsWith.
  destruct (dropPrefix basepath file) as [rest|] eqn:Hdrop; simpl.
  - repeat split; [|done]. intros _.
    rewrite (removeFirst_prefix _ _ _ Hdrop). by apply dropPrefix_sound.
  - repeat split; done.
Qed.

(** A path that is not a directory is refused before anything is sent:
    when [stat] fails or reports something other than a directory,
    [uploadDirectory] fails and issues no request. *)
Theorem directory_upload_refuses_non_directory
    (json : Type) (stringify : json → string)
    (makeUrl : string → string → string) (fs : fileSystem)
    (answer : directoryPost → result string) (path : string)
    (opts : directoryOptions json) :
  statIsDirectory fs path ≠ Ok true →
  ∃ e, uploadDirectory json stringify makeUrl fs answer path opts
       = (Err e, []).
Proof.
  intros Hstat. unfold uploadDirectory.
  destruct (statIsDirectory fs path) as [[]|e]; [done | eauto | eauto].
Qed.

Lemma directory_upload_refuses_non_directory_witness :
  ∃ e, uploadDirectory string id sampleMakeUrl (sampleFileSystem false)
         (λ _, Ok sampleSkylink) "/srv/site/index.html"
         sampleDirectoryOptions
       = (Err e, []).
Proof.
  apply directory_upload_refuses_non_directory. done.
Defined.

(** For a directory, [uploadDirectory] issues exactly one POST.  Its form
    holds one entry per walked file, in walk order; the name of a file
    below the base path is its path relative to it (the base path followed
    by the name is the file's path), and a file that is not below the base
    path keeps its whole path as name.  When the portal answers, the result
    is the URI prefix followed by the skylink of the answer. *)
Theorem directory_upload_form
    (json : Type) (stringify : json → string)
    (makeUrl : string → string → string) (fs : fileSystem)
    (answer : directoryPost → result string) (path : string)
    (opts : directoryOptions json) :
  statIsDirectory fs path = Ok true →
  ∃ post,
    snd (uploadDirectory json stringify makeUrl fs answer path opts) = [post]
    ∧ fst <$> dp_files post = walkDirectory fs (resolve fs path)
    ∧ (∀ i file name,
         dp_files post !! i = Some (file, name) →
         walkDirectory fs (resolve fs path) !! i = Some file
         ∧ (startsWith (directoryBasepath fs (resolve fs path)) file = true →
            directoryBasepath fs (resolve fs path) +:+ name = file)
         ∧ (startsWith (directoryBasepath fs (resolve fs path)) file = false →
            name = file))
    ∧ (∀ skylink,
         answer post = Ok skylink →
         fst (uploadDirectory json stringify makeUrl fs answer path opts)
         = Ok (uriSkynetPrefix +:+ skylink)).
Proof.
  intros Hstat. unfold uploadDirectory. rewrite Hstat.
  set (basepath := directoryBasepath fs (resolve fs path)).
  set (post := {| dp_url := _ |}).
  exists post. split; [by destruct (answer post)|]. split; [|split].
  - subst post. cbn [dp_files]. rewrite <- list_fmap_compose.
    rewrite <- (list_fmap_id (walkDirectory fs (resolve fs path))) at 2.
    apply list_fmap_ext. intros i file _. done.
  - intros i file name. subst post. cbn [dp_files].
    rewrite list_lookup_fmap.
    destruct (walkDirectory fs (resolve fs path) !! i) as [f|]; [|done].
    simpl. intros [= -> Hn].
    pose proof (directoryEntry_relative basepath file) as (_ & Hin & Hout).
    unfold directoryEntry in Hin, Hout. simpl in Hin, Hout.
    rewrite Hn in Hin, Hout. done.
  - intros skylink Hans. by rewrite Hans.
Qed.

Lemma directory_upload_form_witness :
  ∃ post,
    snd (uploadDirectory string id sampleMakeUrl (sampleFileSystem true)
           (λ _, Ok sampleSkylink) "/srv/site" sampleDirectoryOptions)
    = [post]
    ∧ dp_files post
      = [ ("/srv/site/index.html", "index.html");
          ("/srv/site/css/main.css", "css/main.css");
          ("/tmp/other.txt", "/tmp/other.txt") ].
Proof.
  destruct (directory_upload_form string id sampleMakeUrl
              (sampleFileSystem true) (λ _, Ok sampleSkylink) "/srv/site"
              sampleDirectoryOptions eq_refl) as (post & Hpost & _).
  exists post. split; [done|].
  simpl in Hpost. by injection Hpost as <-.
Defined.

(** ** More on [decodeSkylinkBase64] *)

Lemma land_255_byte (x : Z) : 0 ≤ Z.land x 255 ≤ 255.
Proof.
  assert (Z.land x 255 = x `mod` 256) as ->.
  { change 255 with (Z.ones 8). rewrite Z.land_ones by lia. done. }
  pose proof (Z.mod_pos_bound x 256 ltac:(lia)). lia.
Qed.

Lemma decodeQuad_bytes b64 st i :
  Forall (λ b, 0 ≤ b ≤ 255) (snd st) →
  Forall (λ b, 0 ≤ b ≤ 255) (snd (Base64Js.decodeQuad b64 st i)).
Proof.
  destruct st as [curByte arr]. unfold Base64Js.decodeQuad. simpl.
  intros Harr. repeat apply Forall_insert; auto using land_255_byte.
Qed.

Lemma foldl_decodeQuad_bytes b64 (idxs : list Z) st :
  Forall (λ b, 0 ≤ b ≤ 255) (snd st) →
  Forall (λ b, 0 ≤ b ≤ 255) (snd (foldl (Base64Js.decodeQuad b64) st idxs)).
Proof.
  revert st. induction idxs as [|i idxs IH]; intros st Hst; simpl; [done|].
  apply IH. by apply decodeQuad_bytes.
Qed.

(** Every element of the array [decodeSkylinkBase64] returns is a byte, a
    number from 0 to 255. *)
Theorem decode_returns_bytes (skylink : string) (bytes : list Z) :
  decodeSkylinkBase64 skylink = Ok bytes →
  Forall (λ b, 0 ≤ b ≤ 255) bytes.
Proof.
  unfold decodeSkylinkBase64. case_decide; [done|].
  unfold Base64Js.toByteArray.
  destruct (Base64Js.getLens _) as [[validLen placeHoldersLen]|e]; [|done].
  destruct (_ <? 0); [done|].
  match goal with
  | |- context [foldl (Base64Js.decodeQuad ?b) ?st ?idxs] =>
      pose proof (foldl_decodeQuad_bytes b idxs st) as Hloop;
      destruct (foldl (Base64Js.decodeQuad b) st idxs) as [curByte arr]
  end.
  simpl in Hloop.
  assert (Harr : Forall (λ b, 0 ≤ b ≤ 255) arr).
  { apply Hloop. apply Forall_replicate. lia. }
  destruct (placeHoldersLen =? 2); destruct (placeHoldersLen =? 1);
    intros [= <-]; repeat apply Forall_insert; auto using land_255_byte.
Qed.

Lemma decode_returns_bytes_witness :
  Forall (λ b, 0 ≤ b ≤ 255)
    [92; 0; 111; 139; 178; 109; 37; 180; 18; 48; 7; 3; 194; 117; 39;
     154; 157; 133; 40; 51; 227; 131; 207; 237; 77; 49; 79; 224; 28; 12;
     75; 21; 93; 18].
Proof.
  apply (decode_returns_bytes sampleSkylink). vm_compute. reflexivity.
Defined.

Lemma mapChars_compose (f g : ascii → ascii) (s : string) :
  mapChars g (mapChars f s) = mapChars (λ c, g (f c)) s.
Proof. induction s as [|c s IH]; simpl; [done | by rewrite IH]. Qed.

Lemma mapChars_ext (f g : ascii → ascii) (s : string) :
  (∀ c, f c = g c) → mapChars f s = mapChars g s.
Proof.
  intros Hfg. induction s as [|c s IH]; simpl; [done|].
  by rewrite Hfg, IH.
Qed.

(** The translation of the URL-safe alphabet, as one map on characters. *)
Lemma urlSafe_translation_idempotent (c : ascii) :
  let tr := λ c : ascii,
    (if Ascii.eqb (if Ascii.eqb c "-" then "+" else c) "_" then "/"
     else if Ascii.eqb c "-" then "+" else c)%char in
  tr (tr c) = tr c.
Proof. destruct c as [[] [] [] [] [] [] [] []]; reflexivity. Qed.

(** A skylink written with the standard alphabet decodes as the same
    skylink written with the URL-safe one: replacing [-] by [+] and [_] by
    [/] in the input does not change what [decodeSkylinkBase64] returns. *)
Theorem decode_alphabets_agree (skylink : string) :
  decodeSkylinkBase64 (replaceAll "_" "/" (replaceAll "-" "+" skylink))
  = decodeSkylinkBase64 skylink.
Proof.
  unfold decodeSkylinkBase64, replaceAll.
  rewrite !mapChars_length.
  case_decide; [done|]. f_equal.
  rewrite !mapChars_app, !mapChars_compose. f_equal.
  apply mapChars_ext. intros c. apply urlSafe_translation_idempotent.
Qed.

Lemma indexOfFrom_found (c : ascii) (s t : string) (i : Z) :
  hasChar c s = true →
  ∃ k, 0 ≤ k < Z.of_nat (String.length s)
       ∧ indexOfFrom c (s +:+ t) i = Some (i + k).
Proof.
  revert i. induction s as [|d s IH]; intros i; [done|].
  cbn [hasChar]. change (String d s +:+ t) with (String d (s +:+ t)).
  cbn [indexOfFrom String.length]. destruct (Ascii.eqb d c); simpl.
  - intros _. exists 0. split; [lia | f_equal; lia].
  - intros Hs. destruct (IH (i + 1) Hs) as (k & Hk & Hidx).
    exists (k + 1). split; [lia|]. rewrite Hidx. f_equal. lia.
Qed.

Lemma byteLength_cut_short (k : Z) :
  0 ≤ k < 46 → Base64Js._byteLength k (4 - k `mod` 4) < 34.
Proof.
  intros Hk.
  assert (Hall : forallb (λ k, Base64Js._byteLength k (4 - k `mod` 4) <? 34)
                   (seqZ 0 46) = true) by (vm_compute; reflexivity).
  apply Is_true_eq_left, forallb_True in Hall.
  rewrite Forall_lookup in Hall.
  specialize (Hall (Z.to_nat k) k).
  rewrite lookup_seqZ_lt in Hall by lia.
  apply Is_true_eq_true, Z.ltb_lt in Hall; [done|]. f_equal. lia.
Qed.

(** A 46-character input that contains [=] is never decoded to a whole
    skylink: [decodeSkylinkBase64] either fails or returns fewer than 34
    bytes.  It fails when [=] is the first character. *)
Theorem decode_with_pad_character (skylink : string) :
  String.length skylink = 46%nat → hasChar "=" skylink = true →
  (∀ bytes, decodeSkylinkBase64 skylink = Ok bytes →
            (length bytes < RAW_SKYLINK_SIZE)%nat)
  ∧ (∀ rest, skylink = String "=" rest →
             isOk (decodeSkylinkBase64 skylink) = false).
Proof.
  intros Hlen Hpad. unfold decodeSkylinkBase64, BASE64_ENCODED_SKYLINK_SIZE.
  rewrite decide_False by lia.
  assert (Hpad' : hasChar "=" (replaceAll "_" "/" (replaceAll "-" "+" skylink))
                  = true) by (by rewrite !hasChar_replaceAll).
  destruct (indexOfFrom_found "="
              (replaceAll "_" "/" (replaceAll "-" "+" skylink))
              (replaceAll "_" "/" (replaceAll "-" "+" "==")) 0 Hpad')
    as (k & Hk & Hidx).
  unfold replaceAll in Hk. rewrite !mapChars_length, Hlen in Hk.
  assert (Hlens : Base64Js.getLens
                    (replaceAll "_" "/" (replaceAll "-" "+" (skylink +:+ "==")))
                  = Ok (k, 4 - k `mod` 4)).
  { unfold Base64Js.getLens, indexOf. unfold replaceAll in *.
    rewrite !mapChars_length, string_app_length, Hlen.
    change (0 <? Z.of_nat (46 + String.length "==") `mod` 4) with false.
    cbv iota. rewrite !mapChars_app, Hidx. simpl default.
    change (Z.of_nat (46 + String.length "==")) with 48.
    rewrite Z.add_0_l. destruct (Z.eqb_spec k 48); [lia | done]. }
  split.
  - intros bytes Hdec.
    apply toByteArray_length in Hdec as (v & p & Hl & Hb).
    rewrite Hlens in Hl. injection Hl as <- <-.
    pose proof (byteLength_cut_short k ltac:(lia)).
    unfold RAW_SKYLINK_SIZE. lia.
  - intros rest ->. unfold Base64Js.toByteArray.
    assert (k = 0) as ->.
    { unfold replaceAll in Hidx. simpl in Hidx. injection Hidx. lia. }
    rewrite Hlens. reflexivity.
Qed.

Lemma decode_with_pad_character_witness :
  (length (replicate 33 0%Z) < RAW_SKYLINK_SIZE)%nat.
Proof.
  apply (proj1 (decode_with_pad_character padded45 eq_refl eq_refl)).
  vm_compute. reflexivity.
Defined.

(** ** Options the large-file path accepts *)

Lemma Qltb_ge (x y : Q) : Qltb x y = false ↔ ¬ (x < y)%Q.
Proof.
  rewrite <- Qltb_lt. destruct (Qltb x y); split; try done.
Qed.

(** The checks of [uploadLargeFile] reject nothing else: options pass them
    exactly when [chunkSizeMultiplier] and [numParallelUploads] are
    integers of at least 1 and [staggerPercent], if present, lies in
    [[0, 100]]; and when they pass, the first thing the operation does is
    start the transfer. *)
Theorem large_upload_accepts_iff_valid
    (TUS_CHUNK_SIZE : Z) (makeUrl : string → string → string)
    (w : world) (filename : string) (filesize : Z) (opts : uploadOptions)
    (t : list request) :
  (validateLargeOptions opts = Ok tt ↔ ¬ invalidLargeOptions opts)
  ∧ (¬ invalidLargeOptions opts →
     ∃ rest,
       snd (uploadLargeFile TUS_CHUNK_SIZE makeUrl w filename filesize opts t)
       = t ++ TusStart (buildTusOptions TUS_CHUNK_SIZE makeUrl filename
                          filesize opts) :: rest).
Proof.
  assert (Hiff : validateLargeOptions opts = Ok tt ↔ ¬ invalidLargeOptions opts).
  { split.
    - intros Hok Hinv.
      destruct (validateLargeOptions_invalid opts Hinv) as (? & ? & Herr).
      congruence.
    - intros Hvalid. unfold invalidLargeOptions in Hvalid.
      unfold validateLargeOptions, validateInteger.
      assert (Qltb (chunkSizeMultiplier opts) 1 = false) as ->
        by (apply Qltb_ge; tauto).
      assert (Qltb (numParallelUploads opts) 1 = false) as ->
        by (apply Qltb_ge; tauto).
      assert (isInteger (chunkSizeMultiplier opts) = true) as ->
        by (destruct (isInteger (chunkSizeMultiplier opts)); tauto).
      assert (isInteger (numParallelUploads opts) = true) as ->
        by (destruct (isInteger (numParallelUploads opts)); tauto).
      destruct (staggerPercent opts) as [p|]; [|done].
      assert (Qltb p 0 = false) as ->
        by (apply Qltb_ge; intros ?; apply Hvalid; eauto 10).
      assert (Qltb 100 p = false) as ->
        by (apply Qltb_ge; intros ?; apply Hvalid; eauto 10).
      done. }
  split; [done|]. intros Hvalid. apply Hiff in Hvalid.
  unfold uploadLargeFile, onSuccess, mbind, io_bind, mret, io_ret,
    liftResult, issue.
  rewrite Hvalid. destruct (tusRun w _) as [msg|[url|]].
  - by exists [].
  - exists [Head url]. destruct (headHeaders w url); simpl;
      by rewrite <- app_assoc.
  - by exists [].
Qed.

Lemma large_upload_accepts_iff_valid_witness :
  ∃ rest,
    snd (uploadLargeFile sampleChunkSize sampleMakeUrl
           (sampleWorld (Some sampleUploadUrl) ∅) "big.bin"
           (3 * sampleChunkSize) (sampleOptions 1 2) [])
    = [] ++ TusStart (buildTusOptions sampleChunkSize sampleMakeUrl "big.bin"
                        (3 * sampleChunkSize) (sampleOptions 1 2)) :: rest.
Proof.
  apply (large_upload_accepts_iff_valid sampleChunkSize sampleMakeUrl
           (sampleWorld (Some sampleUploadUrl) ∅) "big.bin"
           (3 * sampleChunkSize) (sampleOptions 1 2) []).
  apply (proj1 (large_upload_accepts_iff_valid sampleChunkSize sampleMakeUrl
                  (sampleWorld (Some sampleUploadUrl) ∅) "big.bin"
                  (3 * sampleChunkSize) (sampleOptions 1 2) [])).
  reflexivity.
Defined.
